(** * GLMNet with Hessian-informed proximal coordinate descent

    A shallow embedding of [tensorflow_probability/python/glm/proximal_hessian.py]
    and the verification of its specification.

    - Tensors are modelled by rank: a scalar is an element of the dtype, a
      vector is a [list], a matrix is a shape with an indexing function.
    - The dtype (float32, float64, ...) is an interface, [dtype]; the IEEE
      formats are instances built on the Standard Library's [spec_float].
    - TensorFlow operations that can fail (shape mismatch, index out of range,
      integer division by zero) return in the error monad [result].
    - [tf.while_loop] is a fuel-bounded iteration; running out of fuel is the
      distinguished error [OutOfFuel], and the termination theorems show that
      it never occurs once the fuel covers the iteration budget.
    - Only dense [Tensor] arguments are modelled: [_is_sparse] is [False] and
      every [_sparse_or_dense_*] helper takes its dense branch. *)

From Stdlib Require Import ZArith List Bool Lia SpecFloat Ring.
Import ListNotations.

Set Implicit Arguments.
Local Open Scope Z_scope.

(* ================================================================== *)
(** * The error monad *)

Inductive error : Type :=
| InvalidArgument   (* tf.errors.InvalidArgumentError *)
| TypeError         (* Python TypeError: arithmetic on None *)
| OutOfFuel.        (* the model's loop bound was reached; not a TF error *)

Inductive result (A : Type) : Type :=
| Ok (a : A)
| Err (e : error).

Arguments Ok {A} a.
Arguments Err {A} e.

Definition bind {A B : Type} (c : result A) (k : A -> result B) : result B :=
  match c with
  | Ok a => k a
  | Err e => Err e
  end.

Notation "x <- c ;; k" := (bind c (fun x => k))
  (at level 61, c at next level, right associativity).
Notation "' p <- c ;; k" := (bind c (fun p => k))
  (at level 61, p pattern, c at next level, right associativity).

(* ================================================================== *)
(** * The dtype interface *)

(** Scalar operations of a TensorFlow numeric dtype, as the source uses them:
    the Python operators [+ - * /], unary [-], [**2.], [<], [>], and
    [tf.abs], [tf.sign], [tf.maximum], [tf.sqrt] (inside [tf.norm]),
    [tf.equal], [tf.not_equal]. *)
Class dtype : Type := {
  F : Type;
  zero : F;
  one : F;
  two : F;
  add : F -> F -> F;
  sub : F -> F -> F;
  mul : F -> F -> F;
  div : F -> F -> F;
  neg : F -> F;
  square : F -> F;
  tf_abs : F -> F;
  tf_sign : F -> F;
  tf_maximum : F -> F -> F;
  tf_sqrt : F -> F;
  less : F -> F -> bool;
  greater : F -> F -> bool;
  tf_equal : F -> F -> bool;
  tf_not_equal : F -> F -> bool
}.

(** What a floating dtype has on top: [np.inf] and [tf.is_finite]. *)
Class floating (D : dtype) : Type := {
  inf : F;
  tf_is_finite : F -> bool
}.

Declare Scope dtype_scope.
Delimit Scope dtype_scope with F.
Infix "+" := add : dtype_scope.
Infix "-" := sub : dtype_scope.
Infix "*" := mul : dtype_scope.
Infix "/" := div : dtype_scope.
Notation "- x" := (neg x) : dtype_scope.

(** ** IEEE 754 binary formats *)

Section IEEE.
Variables prec emax : Z.

Definition ieee_of_Z (z : Z) : spec_float := binary_normalize prec emax z 0 false.

Definition ieee_is_finite (x : spec_float) : bool :=
  match x with
  | S754_zero _ | S754_finite _ _ _ => true
  | S754_infinity _ | S754_nan => false
  end.

(** [tf.sign] is Eigen's [(0 < x) - (x < 0)]; [tf.maximum] is [std::max].
    Only their values on ordered (non-NaN) arguments are relied upon. *)
Definition ieee_sign (x : spec_float) : spec_float :=
  SFsub prec emax
    (if SFltb (S754_zero false) x then ieee_of_Z 1 else S754_zero false)
    (if SFltb x (S754_zero false) then ieee_of_Z 1 else S754_zero false).

Definition ieee_maximum (x y : spec_float) : spec_float :=
  if SFltb x y then y else x.

Definition ieee_dtype : dtype := {|
  F := spec_float;
  zero := S754_zero false;
  one := ieee_of_Z 1;
  two := ieee_of_Z 2;
  add := SFadd prec emax;
  sub := SFsub prec emax;
  mul := SFmul prec emax;
  div := SFdiv prec emax;
  neg := SFopp;
  square := fun x => SFmul prec emax x x;
  tf_abs := SFabs;
  tf_sign := ieee_sign;
  tf_maximum := ieee_maximum;
  tf_sqrt := SFsqrt prec emax;
  less := SFltb;
  greater := fun x y => SFltb y x;
  tf_equal := SFeqb;
  tf_not_equal := fun x y => negb (SFeqb x y)
|}.

Definition ieee_floating : floating ieee_dtype :=
  @Build_floating ieee_dtype (S754_infinity false) ieee_is_finite.
End IEEE.

Definition float64 : dtype := ieee_dtype 53 1024.
Definition float64_floating : floating float64 := ieee_floating 53 1024.
Definition float32 : dtype := ieee_dtype 24 128.
Definition float32_floating : floating float32 := ieee_floating 24 128.

(** ** An integer dtype, exact *)

Definition int_dtype : dtype := {|
  F := Z;
  zero := 0;
  one := 1;
  two := 2;
  add := Z.add;
  sub := Z.sub;
  mul := Z.mul;
  div := Z.div;
  neg := Z.opp;
  square := fun x => x * x;
  tf_abs := Z.abs;
  tf_sign := Z.sgn;
  tf_maximum := Z.max;
  tf_sqrt := Z.sqrt;
  less := Z.ltb;
  greater := Z.gtb;
  tf_equal := Z.eqb;
  tf_not_equal := fun x y => negb (Z.eqb x y)
|}.

(* ================================================================== *)
(** * int32 arithmetic of the loop counters *)

Definition int32_wrap (z : Z) : Z := (z + 2147483648) mod 4294967296 - 2147483648.
Definition int32_add (a b : Z) : Z := int32_wrap (a + b).
Definition int32_mul (a b : Z) : Z := int32_wrap (a * b).

(** [%] on int32 tensors is [tf.floormod]; the kernel reports a zero divisor. *)
Definition int32_floormod (a b : Z) : result Z :=
  if b =? 0 then Err InvalidArgument else Ok (a mod b).

(* ================================================================== *)
(** * Dense tensors and the TensorFlow operations the source calls *)

Section Tensors.
Context {D : dtype}.

(** A rank-1 tensor. *)
Definition vec : Type := list F.

(** A rank-2 tensor of shape [[num_rows, num_cols]]. *)
Record matrix : Type := {
  num_rows : nat;
  num_cols : nat;
  entry : nat -> nat -> F
}.

Definition matrix_of_rows (n : nat) (rows : list (list F)) : matrix := {|
  num_rows := length rows;
  num_cols := n;
  entry := fun i j => nth j (nth i rows []) zero
|}.

Definition size (x : vec) : Z := Z.of_nat (length x).

(** [tf.zeros([n])] and [tf.zeros_like]. *)
Definition tf_zeros (n : nat) : vec := repeat zero n.
Definition tf_zeros_like (x : vec) : vec := tf_zeros (length x).

(** [tf.fill(tf.shape(x), value)]. *)
Definition tf_fill_like {A : Type} (x : list A) (value : F) : vec :=
  repeat value (length x).

(** [x[i]] for a scalar int32 tensor [i]: a strided slice, which rejects an
    index outside the dimension. *)
Definition tf_index (x : vec) (i : Z) : result F :=
  if (0 <=? i) && (i <? size x)
  then Ok (nth (Z.to_nat i) x zero)
  else Err InvalidArgument.

(** Elementwise binary operations broadcast: the two lengths agree, or one
    of them is 1. *)
Definition map2 {A B C : Type} (f : A -> B -> C) (xs : list A) (ys : list B)
  : list C :=
  map (fun p => f (fst p) (snd p)) (combine xs ys).

Definition broadcast {A B C : Type} (f : A -> B -> C)
           (xs : list A) (ys : list B) : result (list C) :=
  if Nat.eqb (length xs) (length ys) then Ok (map2 f xs ys)
  else match xs, ys with
       | [x], _ => Ok (map (f x) ys)
       | _, [y] => Ok (map (fun x => f x y) xs)
       | _, _ => Err InvalidArgument
       end.

Definition vadd : vec -> vec -> result vec := broadcast add.
Definition vsub : vec -> vec -> result vec := broadcast sub.
Definition vmul : vec -> vec -> result vec := broadcast mul.
Definition vdiv : vec -> vec -> result vec := broadcast div.
Definition vand : list bool -> list bool -> result (list bool) := broadcast andb.

(** A scalar against a vector always broadcasts. *)
Definition smul (c : F) (x : vec) : vec := map (mul c) x.
Definition vneg (x : vec) : vec := map neg x.
Definition vsquare (x : vec) : vec := map square x.

(** [tf.where(condition, x, y)] (the [Select] kernel): no broadcasting. *)
Definition tf_where (condition : list bool) (x y : vec) : result vec :=
  if Nat.eqb (length condition) (length x) && Nat.eqb (length x) (length y)
  then Ok (map (fun p : bool * (F * F) =>
                 if fst p then fst (snd p) else snd (snd p))
               (combine condition (combine x y)))
  else Err InvalidArgument.

(** [tf.reduce_sum]. *)
Definition tf_reduce_sum (x : vec) : F := fold_left add x zero.

(** [tf.norm(x, ord=2)]: [sqrt(reduce_sum(x * x))]. *)
Definition tf_norm (x : vec) : F :=
  tf_sqrt (tf_reduce_sum (map (fun a : F => a * a)%F x)).

(** [v[..., tf.newaxis]]. *)
Definition newaxis (v : vec) : matrix := {|
  num_rows := length v;
  num_cols := 1;
  entry := fun i _ => nth i v zero
|}.

Definition transpose (a : matrix) : matrix := {|
  num_rows := num_cols a;
  num_cols := num_rows a;
  entry := fun i j => entry a j i
|}.

(** [tf.matmul(a, b, adjoint_a=...)] on real matrices. *)
Definition tf_matmul (a b : matrix) (adjoint_a : bool) : result matrix :=
  let a' := if adjoint_a then transpose a else a in
  if Nat.eqb (num_cols a') (num_rows b)
  then Ok {| num_rows := num_rows a';
             num_cols := num_cols b;
             entry := fun i k =>
               tf_reduce_sum
                 (map (fun j => (entry a' i j * entry b j k)%F)
                      (seq 0 (num_cols a'))) |}
  else Err InvalidArgument.

(** [tf.squeeze(m, axis=[-1])]. *)
Definition tf_squeeze (m : matrix) : result vec :=
  if Nat.eqb (num_cols m) 1
  then Ok (map (fun i => entry m i 0%nat) (seq 0 (num_rows m)))
  else Err InvalidArgument.

(** [tf.gather(m, col_index, axis=-1)]. *)
Definition tf_gather (m : matrix) (col_index : Z) : result vec :=
  if (0 <=? col_index) && (col_index <? Z.of_nat (num_cols m))
  then Ok (map (fun i => entry m i (Z.to_nat col_index)) (seq 0 (num_rows m)))
  else Err InvalidArgument.

(** [tf.one_hot(indices, depth, on_value, dtype)], off value 0. *)
Definition tf_one_hot (indices : Z) (depth : nat) (on_value : option F) : vec :=
  map (fun k => if Z.of_nat k =? indices
                then match on_value with Some v => v | None => one end
                else zero)
      (seq 0 depth).

(** [tf.scatter_update(var, [i], [value])]: the new contents of [var]. *)
Fixpoint list_update (x : vec) (i : nat) (value : F) : vec :=
  match x, i with
  | [], _ => []
  | _ :: t, O => value :: t
  | h :: t, S i' => h :: list_update t i' value
  end.

Definition tf_scatter_update (var : vec) (i : Z) (value : F) : result vec :=
  if (0 <=? i) && (i <? size var)
  then Ok (list_update var (Z.to_nat i) value)
  else Err InvalidArgument.

(** ** The module's private helpers *)

Fixpoint _reduce_ignoring_nones_from {T : Type} (fn : T -> T -> T)
         (result : option T) (args : list (option T)) : option T :=
  match args with
  | [] => result
  | None :: rest => _reduce_ignoring_nones_from fn result rest
  | Some x :: rest =>
      _reduce_ignoring_nones_from fn
        (Some (match result with None => x | Some r => fn r x end)) rest
  end.

Definition _reduce_ignoring_nones {T : Type} (fn : T -> T -> T)
           (args : list (option T)) : option T :=
  _reduce_ignoring_nones_from fn None args.

Definition is_none {T : Type} (x : option T) : bool :=
  match x with None => true | Some _ => false end.

Definition _reduce_exiting_on_none {T : Type} (fn : T -> T -> T)
           (args : list (option T)) : option T :=
  if existsb is_none args then None else _reduce_ignoring_nones fn args.

Definition _add_ignoring_nones (args : list (option F)) : option F :=
  _reduce_ignoring_nones add args.

Definition _mul_ignoring_nones (args : list (option F)) : option F :=
  _reduce_ignoring_nones mul args.

Definition _mul_or_none (args : list (option F)) : option F :=
  _reduce_exiting_on_none mul args.

(** Using [None] where a tensor is needed is a Python [TypeError]. *)
Definition tensor_of (x : option F) : result F :=
  match x with Some v => Ok v | None => Err TypeError end.

Definition _sparse_or_dense_matmul (sparse_or_dense_x dense_y : matrix)
           (adjoint_a : bool) : result matrix :=
  tf_matmul sparse_or_dense_x dense_y adjoint_a.

Definition _sparse_or_dense_matvecmul (sparse_or_dense_matrix : matrix)
           (dense_vector : vec) (adjoint_a : bool) : result vec :=
  m <- _sparse_or_dense_matmul sparse_or_dense_matrix (newaxis dense_vector)
                               adjoint_a ;;
  tf_squeeze m.

(** [size] is used by the sparse branch only. *)
Definition _sparse_or_dense_matmul_onehot (sparse_or_dense_matrix : matrix)
           (col_index : Z) (size : Z) : result vec :=
  tf_gather sparse_or_dense_matrix col_index.

Definition _sparse_or_dense_inner_square (sparse_or_dense_vector : vec) : F :=
  tf_reduce_sum (vsquare sparse_or_dense_vector).

Definition _one_hot_like (x : vec) (indices : Z) (on_value : option F) : vec :=
  tf_one_hot indices (length x) on_value.

(** ** [soft_threshold] *)

(** On a scalar, as the sweep calls it. *)
Definition soft_threshold (x threshold : F) : F :=
  (tf_sign x * tf_maximum (tf_abs x - threshold) zero)%F.

(** On a vector with a scalar threshold: the same expression, each
    TensorFlow operation applied elementwise. *)
Definition soft_threshold_tensor (x : vec) (threshold : F) : vec :=
  map2 mul (map tf_sign x)
       (map (fun a : F => tf_maximum a zero)
            (map (fun a : F => (a - threshold)%F) (map tf_abs x))).
End Tensors.

(* ================================================================== *)
(** * [tf.while_loop] *)

(** The loop tests [cond] first; [fuel] bounds the number of [body] runs. *)
Fixpoint tf_while_loop {S : Type} (fuel : nat)
         (cond : S -> result bool) (body : S -> result S) (loop_vars : S)
  : result S :=
  b <- cond loop_vars ;;
  if b then
    match fuel with
    | O => Err OutOfFuel
    | Datatypes.S fuel' =>
        loop_vars' <- body loop_vars ;;
        tf_while_loop fuel' cond body loop_vars'
    end
  else Ok loop_vars.

(** One iteration of a loop, as a relation, and the states a run visits. *)
Definition loop_step {S : Type} (cond : S -> result bool) (body : S -> result S)
           (s s' : S) : Prop :=
  cond s = Ok true /\ body s = Ok s'.

Inductive visits {S : Type} (cond : S -> result bool) (body : S -> result S)
  : S -> S -> Prop :=
| visits_here s : visits cond body s s
| visits_next s0 s1 s :
    loop_step cond body s0 s1 -> visits cond body s1 s -> visits cond body s0 s.

(** [iterates cond body k s0 s]: [s] is reached from [s0] by exactly [k]
    iterations. *)
Inductive iterates {S : Type} (cond : S -> result bool) (body : S -> result S)
  : nat -> S -> S -> Prop :=
| iterates_O s : iterates cond body O s s
| iterates_S k s0 s1 s :
    loop_step cond body s0 s1 -> iterates cond body k s1 s ->
    iterates cond body (Datatypes.S k) s0 s.

(* ================================================================== *)
(** * The likelihood gradient / Fisher information adapter *)

Section Adapter.
Context {D : dtype} {Fl : floating D}.

(** A [tfp.glm.ExponentialFamily]: called on the linear response it returns
    [(mean, variance, grad_mean)]. *)
Definition glm_model : Type := vec -> result (vec * vec * vec).

(** [is_valid]: [tf.is_finite(grad_mean) & tf.not_equal(grad_mean, 0.) &
    tf.is_finite(variance) & (variance > 0.)]. *)
Definition is_valid_mask (variance grad_mean : vec) : result (list bool) :=
  a <- vand (map tf_is_finite grad_mean)
            (map (fun g => tf_not_equal g zero) grad_mean) ;;
  b <- vand a (map tf_is_finite variance) ;;
  vand b (map (fun v => greater v zero) variance).

Definition _mask_if_invalid (is_valid : list bool) (x : vec) (mask : F)
  : result vec :=
  let mask := tf_fill_like x mask in
  tf_where is_valid x mask.

Definition _grad_neg_log_likelihood_and_fim (model_matrix : matrix)
           (linear_response response : vec) (model : glm_model)
  : result (vec * vec) :=
  ' (mean, variance, grad_mean) <- model linear_response ;;
  is_valid <- is_valid_mask variance grad_mean ;;
  residual <- vsub response mean ;;
  grad_mean_1 <- _mask_if_invalid is_valid grad_mean one ;;
  numerator <- vmul residual grad_mean_1 ;;
  variance_inf <- _mask_if_invalid is_valid variance inf ;;
  v <- vdiv numerator variance_inf ;;
  grad_log_likelihood <- _sparse_or_dense_matvecmul model_matrix v true ;;
  grad_mean_0 <- _mask_if_invalid is_valid grad_mean zero ;;
  variance_inf' <- _mask_if_invalid is_valid variance inf ;;
  fim_middle <- vdiv (vsquare grad_mean_0) variance_inf' ;;
  Ok (vneg grad_log_likelihood, fim_middle).
End Adapter.

(* ================================================================== *)
(** * [minimize_sparse_one_step]: the coordinate-descent sweep *)

Module OneStep.
Section Closure.
Context {D : dtype}.

(** The loop variables of [tf.while_loop]. *)
Record loop_vars : Type := {
  iter_ : Z;
  x_update_diff_norm_sq : F;
  x_update : vec;
  hess_matmul_x_update : vec
}.

(** What the nested functions close over. *)
Variable hessian_unregularized_loss_outer : matrix.
Variable hessian_unregularized_loss_middle : vec.
Variable x_start : vec.
Variable l1_regularizer : F.
Variable l2_regularizer : option F.
Variable maximum_full_sweeps : Z.
Variable learning_rate : option F.
Variable dims : Z.
Variable num_samples : Z.
Variable grad_loss_with_l2 : vec.
Variable x_update_diff_norm_sq_convergence_threshold : F.

Definition _hessian_diag_elt_with_l2 (coord : Z) : result F :=
  middle <- tf_index hessian_unregularized_loss_middle coord ;;
  column <- _sparse_or_dense_matmul_onehot hessian_unregularized_loss_outer
                                           coord num_samples ;;
  let unregularized_component :=
    (middle * _sparse_or_dense_inner_square column)%F in
  let l2_component := _mul_or_none [Some two; l2_regularizer] in
  tensor_of (_add_ignoring_nones [Some unregularized_component; l2_component]).

Definition _loop_cond (vars : loop_vars) : result bool :=
  coord <- int32_floormod (iter_ vars) dims ;;
  let sweep_complete := (0 <? iter_ vars) && (coord =? 0) in
  let small_delta :=
    less (x_update_diff_norm_sq vars)
         x_update_diff_norm_sq_convergence_threshold in
  let converged := sweep_complete && small_delta in
  let allowed_more_iterations :=
    iter_ vars <? int32_mul maximum_full_sweeps dims in
  Ok (allowed_more_iterations && negb converged).

(** The first half of [_loop_body]: [w_old], [second_deriv], [newton_step]
    and [delta], the coordinate's proximal-Newton step. *)
Definition compute_delta (coord : Z) (x_update hess_matmul_x_update : vec)
  : result F :=
  xs <- tf_index x_start coord ;;
  xu <- tf_index x_update coord ;;
  let w_old := (xs + xu)%F in
  second_deriv <- _hessian_diag_elt_with_l2 coord ;;
  g <- tf_index grad_loss_with_l2 coord ;;
  h <- tf_index hess_matmul_x_update coord ;;
  step <- tensor_of (_mul_ignoring_nones [learning_rate; Some (g + h)%F]) ;;
  let newton_step := (- step / second_deriv)%F in
  scale <- tensor_of (_mul_ignoring_nones [learning_rate; Some l1_regularizer]) ;;
  Ok (soft_threshold (w_old + newton_step) (scale / second_deriv) - w_old)%F.

(** [x_update_var] is the resource variable: [_do_update] reads and writes
    it, and hands its new contents back as the loop variable [x_update]. *)
Definition _do_update (coord : Z) (delta : F) (x_update_var : vec)
           (x_update_diff_norm_sq : F) (hess_matmul_x_update : vec)
  : result (vec * (F * vec * vec)) :=
  column <- _sparse_or_dense_matmul_onehot hessian_unregularized_loss_outer
                                           coord num_samples ;;
  weighted <- vmul hessian_unregularized_loss_middle column ;;
  hessian_column <- _sparse_or_dense_matvecmul
                      hessian_unregularized_loss_outer weighted true ;;
  hessian_column_with_l2 <-
    match l2_regularizer with
    | Some l2 =>
        vadd hessian_column
             (_one_hot_like hessian_column coord (Some (two * l2)%F))
    | None => Ok hessian_column
    end ;;
  old <- tf_index x_update_var coord ;;
  changed_x_update_var <- tf_scatter_update x_update_var coord (old + delta)%F ;;
  let x_update_diff_norm_sq_ := (x_update_diff_norm_sq + square delta)%F in
  hess_matmul_x_update_ <-
    vadd hess_matmul_x_update (smul delta hessian_column_with_l2) ;;
  Ok (changed_x_update_var,
      (x_update_diff_norm_sq_, changed_x_update_var, hess_matmul_x_update_)).

Definition _loop_body (x_update_var : vec) (vars : loop_vars)
  : result (vec * loop_vars) :=
  coord <- int32_floormod (iter_ vars) dims ;;
  let x_update_diff_norm_sq :=
    if coord =? 0 then zero else x_update_diff_norm_sq vars in
  delta <- compute_delta coord (x_update vars) (hess_matmul_x_update vars) ;;
  if tf_equal delta zero
  then Ok (x_update_var,
           {| iter_ := int32_add (iter_ vars) 1;
              x_update_diff_norm_sq := x_update_diff_norm_sq;
              x_update := x_update vars;
              hess_matmul_x_update := hess_matmul_x_update vars |})
  else
    ' (x_update_var', (diff', x_update', hess')) <-
      _do_update coord delta x_update_var x_update_diff_norm_sq
                 (hess_matmul_x_update vars) ;;
    Ok (x_update_var',
        {| iter_ := int32_add (iter_ vars) 1;
           x_update_diff_norm_sq := diff';
           x_update := x_update';
           hess_matmul_x_update := hess' |}).

(** The loop over the pair (variable contents, loop variables). *)
Definition cond (s : vec * loop_vars) : result bool := _loop_cond (snd s).
Definition body (s : vec * loop_vars) : result (vec * loop_vars) :=
  _loop_body (fst s) (snd s).
End Closure.
End OneStep.

Section MinimizeSparseOneStep.
Context {D : dtype}.

(** [_add_ignoring_nones(gradient, _mul_or_none(2., l2_regularizer, x_start))]:
    the product folds to [(2. * l2_regularizer) * x_start], and is [None]
    exactly when [l2_regularizer] is. *)
Definition grad_loss_with_l2 (gradient_unregularized_loss x_start : vec)
           (l2_regularizer : option F) : result vec :=
  match _mul_or_none [Some two; l2_regularizer] with
  | Some c => vadd gradient_unregularized_loss (smul c x_start)
  | None => Ok gradient_unregularized_loss
  end.

Definition x_update_diff_norm_sq_convergence_threshold
           (tolerance : F) (x_start : vec) : F :=
  (tolerance * square (one + tf_norm x_start))%F.

(** The variable passed in, or a fresh one of shape [[dims]]. *)
Definition get_x_update_var (x_update_var : option vec) (x_start : vec) : vec :=
  match x_update_var with
  | Some var => var
  | None => tf_zeros (length x_start)
  end.

Definition initial_loop_vars (x_update_var : vec) : vec * OneStep.loop_vars :=
  (tf_zeros_like x_update_var,
   {| OneStep.iter_ := 0;
      OneStep.x_update_diff_norm_sq := zero;
      OneStep.x_update := tf_zeros_like x_update_var;
      OneStep.hess_matmul_x_update := tf_zeros_like x_update_var |}).

(** Returns [(x, is_converged, iter)] and the final contents of
    [x_update_var].  The last line of the source divides [iter_] by [dims]
    under [from __future__ import division]; the quotient is written with
    [Z.div] here; on well-shaped inputs [dims] divides the final [iter_],
    so that true and floor division give the same number. *)
Definition minimize_sparse_one_step (fuel : nat)
           (gradient_unregularized_loss : vec)
           (hessian_unregularized_loss_outer : matrix)
           (hessian_unregularized_loss_middle : vec)
           (x_start : vec) (tolerance l1_regularizer : F)
           (l2_regularizer : option F) (maximum_full_sweeps : Z)
           (learning_rate : option F) (x_update_var : option vec)
  : result (vec * bool * Z * vec) :=
  let dims := size x_start in
  let num_samples := Z.of_nat (num_rows hessian_unregularized_loss_outer) in
  let x_update_var := get_x_update_var x_update_var x_start in
  grad <- grad_loss_with_l2 gradient_unregularized_loss x_start l2_regularizer ;;
  let threshold := x_update_diff_norm_sq_convergence_threshold tolerance x_start in
  final <- tf_while_loop fuel
             (OneStep.cond maximum_full_sweeps dims threshold)
             (OneStep.body hessian_unregularized_loss_outer
                           hessian_unregularized_loss_middle x_start
                           l1_regularizer l2_regularizer learning_rate
                           dims num_samples grad)
             (initial_loop_vars x_update_var) ;;
  let converged := less (OneStep.x_update_diff_norm_sq (snd final)) threshold in
  x <- vadd x_start (OneStep.x_update (snd final)) ;;
  Ok (x, converged, OneStep.iter_ (snd final) / dims, fst final).
End MinimizeSparseOneStep.

(* ================================================================== *)
(** * [minimize_sparse]: the outer iteration *)

Module Driver.
Section Closure.
Context {D : dtype}.

Variable fuel : nat.
Variable grad_and_hessian_loss_fn : vec -> result (vec * matrix * vec).
Variable tolerance : F.
Variable l1_regularizer : F.
Variable l2_regularizer : option F.
Variable maximum_iterations : Z.
Variable maximum_full_sweeps_per_iteration : Z.
Variable learning_rate : option F.

(** [(x_start, converged, iter_)]. *)
Definition loop_vars : Type := (vec * bool * Z)%type.

Definition _loop_cond (vars : loop_vars) : result bool :=
  let '(x_start, converged, iter_) := vars in
  Ok ((iter_ <? maximum_iterations) && negb converged).

Definition _loop_body (x_update_var : vec) (vars : loop_vars)
  : result (vec * loop_vars) :=
  let '(x_start, converged, iter_) := vars in
  ' (g, h_outer, h_middle) <- grad_and_hessian_loss_fn x_start ;;
  ' (x_start', converged', _, x_update_var') <-
    minimize_sparse_one_step fuel g h_outer h_middle x_start tolerance
                             l1_regularizer l2_regularizer
                             maximum_full_sweeps_per_iteration
                             learning_rate (Some x_update_var) ;;
  Ok (x_update_var', (x_start', converged', int32_add iter_ 1)).

Definition cond (s : vec * loop_vars) : result bool := _loop_cond (snd s).
Definition body (s : vec * loop_vars) : result (vec * loop_vars) :=
  _loop_body (fst s) (snd s).
End Closure.
End Driver.

Section MinimizeSparse.
Context {D : dtype}.

(** Returns [(x, is_converged, iter)] and the final contents of
    [x_update_var], the one variable every sweep reuses.  [fuel] bounds both
    the outer loop and each sweep. *)
Definition minimize_sparse (fuel : nat)
           (grad_and_hessian_loss_fn : vec -> result (vec * matrix * vec))
           (x_start : vec) (tolerance l1_regularizer : F)
           (l2_regularizer : option F)
           (maximum_iterations maximum_full_sweeps_per_iteration : Z)
           (learning_rate : option F) (x_update_var : option vec)
  : result (vec * bool * Z * vec) :=
  let x_update_var := get_x_update_var x_update_var x_start in
  final <- tf_while_loop fuel
             (Driver.cond maximum_iterations)
             (Driver.body fuel grad_and_hessian_loss_fn tolerance
                          l1_regularizer l2_regularizer
                          maximum_full_sweeps_per_iteration learning_rate)
             (x_update_var, (x_start, false, 0)) ;;
  Ok (snd final, fst final).
End MinimizeSparse.

(* ================================================================== *)
(** * [fit_sparse_one_step] and [fit_sparse] *)

Section FitSparse.
Context {D : dtype} {Fl : floating D}.

Definition fit_sparse_one_step (fuel : nat)
           (model_matrix : matrix) (response : vec) (model : glm_model)
           (model_coefficients_start : vec) (tolerance l1_regularizer : F)
           (l2_regularizer : option F) (maximum_full_sweeps : Z)
           (learning_rate : option F)
           (model_coefficients_update_var : option vec)
  : result (vec * bool * Z * vec) :=
  predicted_linear_response <-
    _sparse_or_dense_matvecmul model_matrix model_coefficients_start false ;;
  ' (g, h_middle) <-
    _grad_neg_log_likelihood_and_fim model_matrix predicted_linear_response
                                     response model ;;
  minimize_sparse_one_step fuel g model_matrix h_middle
                           model_coefficients_start tolerance l1_regularizer
                           l2_regularizer maximum_full_sweeps learning_rate
                           model_coefficients_update_var.

Definition _grad_neg_log_likelihood_and_fim_fn
           (model_matrix : matrix) (response : vec) (model : glm_model)
           (x : vec) : result (vec * matrix * vec) :=
  predicted_linear_response <- _sparse_or_dense_matvecmul model_matrix x false ;;
  ' (g, h_middle) <-
    _grad_neg_log_likelihood_and_fim model_matrix predicted_linear_response
                                     response model ;;
  Ok (g, model_matrix, h_middle).

Definition fit_sparse (fuel : nat)
           (model_matrix : matrix) (response : vec) (model : glm_model)
           (model_coefficients_start : vec) (tolerance l1_regularizer : F)
           (l2_regularizer : option F)
           (maximum_iterations maximum_full_sweeps_per_iteration : Z)
           (learning_rate : option F)
           (model_coefficients_update_var : option vec)
  : result (vec * bool * Z * vec) :=
  minimize_sparse fuel
                  (_grad_neg_log_likelihood_and_fim_fn model_matrix response model)
                  model_coefficients_start tolerance l1_regularizer
                  l2_regularizer maximum_iterations
                  maximum_full_sweeps_per_iteration learning_rate
                  model_coefficients_update_var.
End FitSparse.

(* ================================================================== *)
(** * Vocabulary of the specification *)

Section Vocabulary.
Context {D : dtype}.

(** [H_outer^T . diag(h_mid) . H_outer], entry [(i, j)]. *)
Definition hessian_unregularized_loss (H_outer : matrix) (h_mid : vec) : matrix := {|
  num_rows := num_cols H_outer;
  num_cols := num_cols H_outer;
  entry := fun i j =>
    tf_reduce_sum
      (map (fun k => (entry H_outer k i * nth k h_mid zero * entry H_outer k j)%F)
           (seq 0 (num_rows H_outer)))
|}.

(** [2 * l2_regularizer], or nothing when L2 is disabled. *)
Definition l2_curvature (l2_regularizer : option F) : F :=
  match l2_regularizer with
  | Some l2 => (two * l2)%F
  | None => zero
  end.

(** [H_outer^T . diag(h_mid) . H_outer + 2 * l2 * I]. *)
Definition hessian_with_l2 (H_outer : matrix) (h_mid : vec)
           (l2_regularizer : option F) : matrix := {|
  num_rows := num_cols H_outer;
  num_cols := num_cols H_outer;
  entry := fun i j =>
    (entry (hessian_unregularized_loss H_outer h_mid) i j
     + (if Nat.eqb i j then l2_curvature l2_regularizer else zero))%F
|}.

(** The matrix-vector product [M . x]. *)
Definition matvec (M : matrix) (x : vec) : vec :=
  map (fun i =>
         tf_reduce_sum
           (map (fun j => (entry M i j * nth j x zero)%F) (seq 0 (num_cols M))))
      (seq 0 (num_rows M)).

Definition less_equal (a b : F) : bool := less a b || tf_equal a b.

(** The vector [_do_update] scales by [delta]: column [coord] of the
    curvature, as the source computes it. *)
Definition hessian_column_with_l2 (H_outer : matrix) (h_mid : vec)
           (l2_regularizer : option F) (coord : nat) : vec :=
  map (fun i =>
         let column_i :=
           tf_reduce_sum
             (map (fun k => (entry H_outer k i
                             * (nth k h_mid zero * entry H_outer k coord))%F)
                  (seq 0 (num_rows H_outer))) in
         match l2_regularizer with
         | Some l2 => (column_i + (if Nat.eqb i coord then two * l2 else zero))%F
         | None => column_i
         end)
      (seq 0 (num_cols H_outer)).

(** The state invariant of the sweep: the loop variable [x_update] is the
    contents of the variable, the vectors keep the shape [[n]], and [iter_]
    stays within the budget. *)
Definition sweep_state_ok (n : nat) (budget : Z) (s : vec * OneStep.loop_vars)
  : Prop :=
  fst s = OneStep.x_update (snd s)
  /\ length (OneStep.x_update (snd s)) = n
  /\ length (OneStep.hess_matmul_x_update (snd s)) = n
  /\ 0 <= OneStep.iter_ (snd s) <= Z.max 0 budget.

Definition is_int32 (z : Z) : Prop := -2147483648 <= z < 2147483648.

(** The shapes inside the loop: [grad] is [grad_loss_with_l2]. *)
Record sweep_shapes_ok (H_outer : matrix) (h_mid x_start grad : vec) : Prop := {
  shape_dims : (0 < length x_start)%nat;
  shape_grad : length grad = length x_start;
  shape_outer : num_cols H_outer = length x_start;
  shape_middle : length h_mid = num_rows H_outer;
  shape_samples : (length x_start <= num_rows H_outer)%nat
}.

(** The shapes the docstring of [minimize_sparse_one_step] asks for:
    [x_start] of shape [[n]] with [n > 0], the gradient of shape [[n]], the
    outer factor of shape [[N, n]], the middle factor of shape [[N]].
    The source reads [hessian_unregularized_loss_middle[coord]] for every
    coordinate, hence [n <= N]; and the iteration budget
    [maximum_full_sweeps * n] has to be an int32. *)
Record sweep_inputs_ok (gradient : vec) (H_outer : matrix) (h_mid x_start : vec)
       (maximum_full_sweeps : Z) (x_update_var : option vec) : Prop := {
  ok_dims : (0 < length x_start)%nat;
  ok_gradient : length gradient = length x_start;
  ok_outer : num_cols H_outer = length x_start;
  ok_middle : length h_mid = num_rows H_outer;
  ok_samples : (length x_start <= num_rows H_outer)%nat;
  ok_var : match x_update_var with
           | Some var => length var = length x_start
           | None => True
           end;
  ok_budget : is_int32 (maximum_full_sweeps * size x_start)
}.

(** The sweep's loop, with everything it closes over. *)
Definition sweep_cond (x_start : vec) (tolerance : F) (maximum_full_sweeps : Z)
  : vec * OneStep.loop_vars -> result bool :=
  OneStep.cond maximum_full_sweeps (size x_start)
               (x_update_diff_norm_sq_convergence_threshold tolerance x_start).

Definition sweep_body (H_outer : matrix) (h_mid x_start : vec)
           (l1_regularizer : F) (l2_regularizer learning_rate : option F)
           (grad : vec)
  : vec * OneStep.loop_vars -> result (vec * OneStep.loop_vars) :=
  OneStep.body H_outer h_mid x_start l1_regularizer l2_regularizer
               learning_rate (size x_start) (Z.of_nat (num_rows H_outer)) grad.

(** [iter_] is on a sweep boundary: [sweep_complete] of [_loop_cond]. *)
Definition sweep_complete (n : nat) (s : vec * OneStep.loop_vars) : bool :=
  (0 <? OneStep.iter_ (snd s)) && (OneStep.iter_ (snd s) mod Z.of_nat n =? 0).

(** One iteration of the sweep on well-shaped data, spelled out for the
    [delta] it computes. *)
Definition next_state (H_outer : matrix) (h_mid : vec)
           (l2_regularizer : option F) (n : nat)
           (s : vec * OneStep.loop_vars) (delta : F)
  : vec * OneStep.loop_vars :=
  let vars := snd s in
  let coord := OneStep.iter_ vars mod Z.of_nat n in
  let diff := if coord =? 0 then zero else OneStep.x_update_diff_norm_sq vars in
  if tf_equal delta zero
  then (fst s,
        {| OneStep.iter_ := OneStep.iter_ vars + 1;
           OneStep.x_update_diff_norm_sq := diff;
           OneStep.x_update := OneStep.x_update vars;
           OneStep.hess_matmul_x_update := OneStep.hess_matmul_x_update vars |})
  else
    let var' := list_update (fst s) (Z.to_nat coord)
                            (nth (Z.to_nat coord) (fst s) zero + delta)%F in
    (var',
     {| OneStep.iter_ := OneStep.iter_ vars + 1;
        OneStep.x_update_diff_norm_sq := (diff + square delta)%F;
        OneStep.x_update := var';
        OneStep.hess_matmul_x_update :=
          map2 add (OneStep.hess_matmul_x_update vars)
               (smul delta (hessian_column_with_l2 H_outer h_mid l2_regularizer
                                                   (Z.to_nat coord))) |}).

(** Laws of exact arithmetic: the dtype is a commutative ring ... *)
Record ring_laws : Prop := {
  add_comm : forall a b : F, (a + b = b + a)%F;
  add_assoc : forall a b c : F, (a + (b + c) = (a + b) + c)%F;
  add_0_l : forall a : F, (zero + a = a)%F;
  add_neg_r : forall a : F, (a + - a = zero)%F;
  sub_def : forall a b : F, (a - b = a + - b)%F;
  mul_comm : forall a b : F, (a * b = b * a)%F;
  mul_assoc : forall a b c : F, (a * (b * c) = (a * b) * c)%F;
  mul_1_l : forall a : F, (one * a = a)%F;
  mul_add_distr_r : forall a b c : F, ((a + b) * c = a * c + b * c)%F
}.

(** ... totally ordered by [<], with [tf.sign], [tf.abs] and [tf.maximum]
    the usual functions. *)
Record order_laws : Prop := {
  less_asym : forall a b : F, less a b = true -> less b a = false;
  less_total : forall a b : F, less a b = false -> less b a = false -> a = b;
  less_add_r : forall a b c : F, less a b = true -> less (a + c)%F (b + c)%F = true;
  sign_def : forall a : F,
      tf_sign a = if less zero a then one
                  else if less a zero then (- one)%F else zero;
  abs_def : forall a : F, tf_abs a = if less a zero then (- a)%F else a;
  maximum_def : forall a b : F, tf_maximum a b = if less a b then b else a
}.
End Vocabulary.

(** ** Vocabulary for the helpers *)

(** The arguments that are not [None], in order. *)
Fixpoint somes {T : Type} (args : list (option T)) : list T :=
  match args with
  | [] => []
  | Some x :: rest => x :: somes rest
  | None :: rest => somes rest
  end.

(** ** Vocabulary for the errors *)

(** [c] fails with errors in [P] only. *)
Definition raises_only {A : Type} (P : error -> Prop) (c : result A) : Prop :=
  forall e, c = Err e -> P e.

Definition is_invalid_argument (e : error) : Prop := e = InvalidArgument.

(** ** Example data: one coefficient, two samples, in float64 *)

Definition f64 (z : Z) : @F float64 := ieee_of_Z 53 1024 z.

Definition f64_inf : @F float64 := @inf float64 float64_floating.

Definition example_outer : @matrix float64 :=
  matrix_of_rows 1 [[f64 1]; [f64 1]].

Definition example_middle : @vec float64 := [f64 1; f64 1].
Definition example_gradient : @vec float64 := [f64 (-2)].
Definition example_x_start : @vec float64 := [f64 0].

(** [1e-6], rounded. *)
Definition example_tolerance : @F float64 := SFdiv 53 1024 (f64 1) (f64 1000000).

Definition example_cond (maximum_full_sweeps : Z)
  : @vec float64 * @OneStep.loop_vars float64 -> result bool :=
  sweep_cond example_x_start example_tolerance maximum_full_sweeps.

Definition example_body
  : @vec float64 * @OneStep.loop_vars float64
    -> result (@vec float64 * @OneStep.loop_vars float64) :=
  sweep_body example_outer example_middle example_x_start (f64 0) None None
             example_gradient.

Definition example_init : @vec float64 * @OneStep.loop_vars float64 :=
  initial_loop_vars (get_x_update_var None example_x_start).

(** The state of the example after its first coordinate update. *)
Definition example_after_update : @vec float64 * @OneStep.loop_vars float64 :=
  ([f64 1],
   {| OneStep.iter_ := 1;
      OneStep.x_update_diff_norm_sq := f64 1;
      OneStep.x_update := [f64 1];
      OneStep.hess_matmul_x_update := [f64 2] |}).

(** ** Example data: two coefficients, two samples, in integers *)

Definition int_example_outer : @matrix int_dtype :=
  @matrix_of_rows int_dtype 2 ([[1; 2]; [3; 4]] : list (list Z)).

Definition int_example_middle : @vec int_dtype := ([1; 1] : list Z).
Definition int_example_gradient : @vec int_dtype := ([-1; -1] : list Z).
Definition int_example_x_start : @vec int_dtype := ([0; 0] : list Z).
Definition int_example_l2 : option (@F int_dtype) := Some (1 : Z).

Section DriverVocabulary.
Context {D : dtype}.

(** The outer counter stays within the budget. *)
Definition driver_state_ok (maximum_iterations : Z)
           (s : vec * Driver.loop_vars) : Prop :=
  0 <= snd (snd s) <= Z.max 0 maximum_iterations.
End DriverVocabulary.

Section FloatingVocabulary.
Context {D : dtype} {Fl : floating D}.

(** One entry of the adapter's mask. *)
Definition sample_is_valid (variance grad_mean : F) : bool :=
  tf_is_finite grad_mean && tf_not_equal grad_mean zero
  && tf_is_finite variance && greater variance zero.

(** [_mask_if_invalid], on one entry. *)
Definition masked (valid : bool) (x mask : F) : F := if valid then x else mask.

(** One entry of [v] and of [fim_middle], as the adapter computes them. *)
Definition adapter_v (response mean variance grad_mean : F) : F :=
  let valid := sample_is_valid variance grad_mean in
  ((response - mean) * masked valid grad_mean one / masked valid variance inf)%F.

Definition adapter_fim (variance grad_mean : F) : F :=
  let valid := sample_is_valid variance grad_mean in
  (square (masked valid grad_mean zero) / masked valid variance inf)%F.

(** What the adapter needs of the special values: comparisons are total on
    finite values, and a finite value divided by infinity is zero. *)
Record floating_laws : Prop := {
  not_equal_def : forall a b : F, tf_not_equal a b = negb (tf_equal a b);
  finite_compare : forall a : F,
      tf_is_finite a = true -> greater a zero = negb (less_equal a zero);
  div_inf : forall a : F,
      tf_is_finite a = true -> tf_equal (a / inf)%F zero = true;
  square_zero_finite : tf_is_finite (square zero) = true
}.

(** The linear-Gaussian model: identity link, unit variance. *)
Definition linear_gaussian : glm_model :=
  fun linear_response =>
    Ok (linear_response, map (fun _ => one) linear_response,
        map (fun _ => one) linear_response).
End FloatingVocabulary.

(* ================================================================== *)
(** * Shapes: when the tensor operations succeed, and what they return *)

Section Shapes.
Context {D : dtype}.

Lemma map2_length {A B C : Type} (f : A -> B -> C) xs ys :
  length xs = length ys -> length (map2 f xs ys) = length xs.
Proof.
  intros H. unfold map2. rewrite length_map, length_combine. lia.
Qed.

Lemma map2_nth {A B C : Type} (f : A -> B -> C) xs ys da db dc i :
  length xs = length ys -> (i < length xs)%nat ->
  nth i (map2 f xs ys) dc = f (nth i xs da) (nth i ys db).
Proof.
  intros Hlen Hi. unfold map2.
  rewrite (nth_indep _ dc (f da db))
    by (rewrite length_map, length_combine; lia).
  change (f da db) with ((fun p => f (fst p) (snd p)) (da, db)).
  rewrite map_nth, combine_nth by assumption. reflexivity.
Qed.

Lemma broadcast_same {A B C : Type} (f : A -> B -> C) xs ys :
  length xs = length ys -> broadcast f xs ys = Ok (map2 f xs ys).
Proof.
  intros H. unfold broadcast. rewrite H, Nat.eqb_refl. reflexivity.
Qed.

Lemma broadcast_mismatch {A B C : Type} (f : A -> B -> C) xs ys :
  length xs <> length ys -> length xs <> 1%nat -> length ys <> 1%nat ->
  broadcast f xs ys = Err InvalidArgument.
Proof.
  intros H Hx Hy. unfold broadcast.
  destruct (Nat.eqb_spec (length xs) (length ys)) as [E|_]; [contradiction|].
  destruct xs as [|x [|x' xs]]; destruct ys as [|y [|y' ys]];
    simpl in *; try reflexivity; contradiction.
Qed.

Lemma tf_zeros_length n : length (tf_zeros n) = n.
Proof. apply repeat_length. Qed.

Lemma tf_zeros_nth n i : nth i (tf_zeros n) zero = zero.
Proof.
  unfold tf_zeros. revert i. induction n; intros [|i]; simpl; auto.
Qed.

Lemma tf_index_ok (x : vec) (i : Z) :
  0 <= i < size x -> tf_index x i = Ok (nth (Z.to_nat i) x zero).
Proof.
  intros H. unfold tf_index.
  destruct (Z.leb_spec 0 i); destruct (Z.ltb_spec i (size x));
    simpl; try reflexivity; lia.
Qed.

Lemma list_update_length (x : vec) i v : length (list_update x i v) = length x.
Proof.
  revert i. induction x as [|h t IH]; intros [|i]; simpl; auto.
Qed.

Lemma list_update_nth (x : vec) i j v :
  (i < length x)%nat ->
  nth j (list_update x i v) zero = if Nat.eqb j i then v else nth j x zero.
Proof.
  revert i j. induction x as [|h t IH]; intros [|i] [|j] Hi; simpl in *;
    try lia; try reflexivity.
  apply IH. lia.
Qed.

Lemma tf_scatter_update_ok (var : vec) (i : Z) v :
  0 <= i < size var ->
  tf_scatter_update var i v = Ok (list_update var (Z.to_nat i) v).
Proof.
  intros H. unfold tf_scatter_update.
  destruct (Z.leb_spec 0 i); destruct (Z.ltb_spec i (size var));
    simpl; try reflexivity; lia.
Qed.

Lemma tf_gather_ok (m : matrix) (j : Z) :
  0 <= j < Z.of_nat (num_cols m) ->
  tf_gather m j = Ok (map (fun i => entry m i (Z.to_nat j)) (seq 0 (num_rows m))).
Proof.
  intros H. unfold tf_gather.
  destruct (Z.leb_spec 0 j); destruct (Z.ltb_spec j (Z.of_nat (num_cols m)));
    simpl; try reflexivity; lia.
Qed.

Lemma nth_map_seq {A : Type} (f : nat -> A) n i d :
  (i < n)%nat -> nth i (map f (seq 0 n)) d = f i.
Proof.
  intros H. rewrite (nth_indep _ d (f 0%nat)) by (rewrite length_map, length_seq; lia).
  rewrite map_nth, seq_nth by lia. reflexivity.
Qed.

(** [X^T . v] and [X . v], through [tf.matmul] and [tf.squeeze]. *)
Lemma matvecmul_adjoint_ok (m : matrix) (v : vec) :
  length v = num_rows m ->
  _sparse_or_dense_matvecmul m v true =
  Ok (map (fun j =>
             tf_reduce_sum
               (map (fun i => (entry m i j * nth i v zero)%F) (seq 0 (num_rows m))))
          (seq 0 (num_cols m))).
Proof.
  intros H. unfold _sparse_or_dense_matvecmul, _sparse_or_dense_matmul, tf_matmul.
  cbn [transpose num_cols num_rows newaxis entry].
  rewrite H, Nat.eqb_refl. reflexivity.
Qed.

Lemma matvecmul_ok (m : matrix) (v : vec) :
  length v = num_cols m ->
  _sparse_or_dense_matvecmul m v false =
  Ok (map (fun i =>
             tf_reduce_sum
               (map (fun j => (entry m i j * nth j v zero)%F) (seq 0 (num_cols m))))
          (seq 0 (num_rows m))).
Proof.
  intros H. unfold _sparse_or_dense_matvecmul, _sparse_or_dense_matmul, tf_matmul.
  cbn [num_cols num_rows newaxis entry].
  rewrite H, Nat.eqb_refl. reflexivity.
Qed.

Lemma matvecmul_mismatch (m : matrix) (v : vec) :
  length v <> num_cols m ->
  _sparse_or_dense_matvecmul m v false = Err InvalidArgument.
Proof.
  intros H. unfold _sparse_or_dense_matvecmul, _sparse_or_dense_matmul, tf_matmul.
  cbn [num_cols num_rows newaxis entry].
  destruct (Nat.eqb_spec (num_cols m) (length v)); [congruence | reflexivity].
Qed.
End Shapes.

(* ================================================================== *)
(** * Reasoning about [tf.while_loop] *)

Section WhileLoop.
Variable S : Type.
Variable cond : S -> result bool.
Variable body : S -> result S.

Lemma loop_step_deterministic s s1 s2 :
  loop_step cond body s s1 -> loop_step cond body s s2 -> s1 = s2.
Proof. intros [_ H1] [_ H2]. congruence. Qed.

Lemma visits_invariant (P : S -> Prop) s0 s :
  (forall a b, P a -> loop_step cond body a b -> P b) ->
  visits cond body s0 s -> P s0 -> P s.
Proof.
  intros Hstep Hv. induction Hv as [|a b c Hab _ IH]; intros HP; eauto.
Qed.

Lemma iterates_visits k s0 s : iterates cond body k s0 s -> visits cond body s0 s.
Proof.
  induction 1; [apply visits_here | eapply visits_next; eauto].
Qed.

(** A run that returns went through finitely many iterations and stopped
    because the condition became false. *)
Lemma while_returns fuel s0 final :
  tf_while_loop fuel cond body s0 = Ok final ->
  exists k, (k <= fuel)%nat /\ iterates cond body k s0 final
            /\ cond final = Ok false.
Proof.
  revert s0. induction fuel as [|fuel IH]; intros s0; simpl;
    destruct (cond s0) as [[|]|e] eqn:Hc; simpl; try discriminate.
  - intros H; inversion H; subst. exists O. repeat split; auto. constructor.
  - destruct (body s0) as [s1|e] eqn:Hb; simpl; try discriminate.
    intros H. destruct (IH _ H) as (k & Hk & Hit & Hf).
    exists (Datatypes.S k). repeat split; [lia | | assumption].
    econstructor; [split; eassumption | assumption].
  - intros H; inversion H; subst. exists O. repeat split; auto with arith.
    constructor.
Qed.

(** The state in which the condition fails is the last one. *)
Lemma while_stops_once fuel s0 final s :
  tf_while_loop fuel cond body s0 = Ok final ->
  visits cond body s0 s -> cond s = Ok false -> s = final.
Proof.
  intros Hrun Hv. revert fuel Hrun.
  induction Hv as [a|a b c Hab Hbc IH]; intros fuel Hrun Hc.
  - destruct fuel; simpl in Hrun; rewrite Hc in Hrun; simpl in Hrun; congruence.
  - destruct Hab as [Hca Hba].
    destruct fuel; simpl in Hrun; rewrite Hca in Hrun; simpl in Hrun;
      [discriminate|].
    rewrite Hba in Hrun; simpl in Hrun. eauto.
Qed.

(** What a loop does when a measure decreases along its iterations: it
    returns the first state in which the condition fails, or stops at the
    first error of its body; it does not run out of fuel. *)
Lemma while_outcome (Inv : S -> Prop) (measure : S -> nat) :
  (forall s, Inv s -> exists b, cond s = Ok b) ->
  (forall s, Inv s -> cond s = Ok true -> (0 < measure s)%nat) ->
  (forall s s', Inv s -> cond s = Ok true -> body s = Ok s' ->
                Inv s' /\ (measure s' < measure s)%nat) ->
  forall fuel s0, Inv s0 -> (measure s0 <= fuel)%nat ->
    (exists k final, iterates cond body k s0 final /\ cond final = Ok false
                     /\ Inv final
                     /\ tf_while_loop fuel cond body s0 = Ok final)
    \/ (exists k s e, iterates cond body k s0 s /\ cond s = Ok true
                      /\ Inv s /\ body s = Err e
                      /\ tf_while_loop fuel cond body s0 = Err e).
Proof.
  intros Hcond Hpos Hbody fuel. induction fuel as [|fuel IH]; intros s0 Hinv Hm.
  - destruct (Hcond _ Hinv) as [[|] Hc].
    + specialize (Hpos _ Hinv Hc). lia.
    + left. exists O, s0. simpl. rewrite Hc. repeat split; auto. constructor.
  - destruct (Hcond _ Hinv) as [[|] Hc].
    + destruct (body s0) as [s1|e] eqn:Hb.
      * destruct (Hbody _ _ Hinv Hc Hb) as [Hinv1 Hlt].
        destruct (IH s1 Hinv1 ltac:(lia))
          as [(k & final & Hit & Hf & Hif & Hrun)|(k & s & e & Hit & Hs & His & He & Hrun)].
        -- left. exists (Datatypes.S k), final. repeat split; auto.
           ++ econstructor; [split; eassumption|assumption].
           ++ simpl. rewrite Hc. simpl. rewrite Hb. simpl. assumption.
        -- right. exists (Datatypes.S k), s, e. repeat split; auto.
           ++ econstructor; [split; eassumption|assumption].
           ++ simpl. rewrite Hc. simpl. rewrite Hb. simpl. assumption.
      * right. exists O, s0, e. repeat split; auto; [constructor|].
        simpl. rewrite Hc. simpl. rewrite Hb. reflexivity.
    + left. exists O, s0. simpl. rewrite Hc. repeat split; auto. constructor.
Qed.
End WhileLoop.

(* ================================================================== *)
(** * The sweep on well-shaped inputs *)

Section SweepRun.
Context {D : dtype}.

Lemma int32_wrap_small z : -2147483648 <= z < 2147483648 -> int32_wrap z = z.
Proof. intros H. unfold int32_wrap. rewrite Z.mod_small; lia. Qed.

Lemma int32_floormod_ok a b : 0 < b -> int32_floormod a b = Ok (a mod b).
Proof.
  intros H. unfold int32_floormod. destruct (Z.eqb_spec b 0); [lia|reflexivity].
Qed.

Lemma mul_or_none_two (l2 : option F) :
  _mul_or_none [Some two; l2] = option_map (mul two) l2.
Proof. destruct l2; reflexivity. Qed.

Lemma grad_loss_with_l2_ok (gradient x_start : vec) l2 :
  length gradient = length x_start ->
  exists grad, grad_loss_with_l2 gradient x_start l2 = Ok grad
               /\ length grad = length x_start.
Proof.
  intros H. unfold grad_loss_with_l2. rewrite mul_or_none_two.
  destruct l2 as [l|]; simpl.
  - unfold vadd. rewrite broadcast_same by (unfold smul; rewrite length_map; auto).
    eexists; split; [reflexivity|].
    rewrite map2_length; unfold smul; rewrite ?length_map; auto.
  - eauto.
Qed.

Lemma map2_map_seq {A B C : Type} (f : A -> B -> C) (a : nat -> A) (b : nat -> B) n :
  map2 f (map a (seq 0 n)) (map b (seq 0 n)) = map (fun i => f (a i) (b i)) (seq 0 n).
Proof.
  unfold map2. generalize 0%nat. induction n; intros s; simpl; auto.
  f_equal. apply IHn.
Qed.

Lemma initial_state_ok (n : nat) (budget : Z) (var : vec) :
  length var = n -> sweep_state_ok n budget (initial_loop_vars var).
Proof.
  intros H. unfold sweep_state_ok, initial_loop_vars, tf_zeros_like. simpl.
  rewrite tf_zeros_length. repeat split; auto; lia.
Qed.

Variable H_outer : matrix.
Variable h_mid x_start : vec.
Variable l1_regularizer : F.
Variable l2_regularizer learning_rate : option F.
Variable grad : vec.

Let n := length x_start.
Let N := num_rows H_outer.

Hypothesis Hshape : sweep_shapes_ok H_outer h_mid x_start grad.

Ltac shapes :=
  pose proof Hshape as [Hn Hgrad Houter Hmid HnN]; fold n N in Hn, Hgrad, Houter, Hmid, HnN.

Lemma hessian_diag_ok coord :
  0 <= coord < Z.of_nat n ->
  exists v, OneStep._hessian_diag_elt_with_l2 H_outer h_mid l2_regularizer
              (Z.of_nat N) coord = Ok v.
Proof.
  intros Hc. shapes. unfold OneStep._hessian_diag_elt_with_l2.
  rewrite tf_index_ok by (unfold size; lia). simpl.
  unfold _sparse_or_dense_matmul_onehot. rewrite tf_gather_ok by lia. simpl.
  rewrite mul_or_none_two. destruct l2_regularizer; simpl; eauto.
Qed.

Lemma compute_delta_ok coord (xu hess : vec) :
  0 <= coord < Z.of_nat n -> length xu = n -> length hess = n ->
  exists delta,
    OneStep.compute_delta H_outer h_mid x_start l1_regularizer l2_regularizer
                          learning_rate (Z.of_nat N) grad coord xu hess = Ok delta.
Proof.
  intros Hc Hxu Hh. shapes. unfold OneStep.compute_delta.
  rewrite (tf_index_ok x_start) by (unfold size; fold n; lia). simpl.
  rewrite (tf_index_ok xu) by (unfold size; lia). simpl.
  destruct (hessian_diag_ok Hc) as [sd ->]. simpl.
  rewrite (tf_index_ok grad) by (unfold size; lia). simpl.
  rewrite (tf_index_ok hess) by (unfold size; lia). simpl.
  destruct learning_rate; simpl; eauto.
Qed.

Lemma weighted_column_ok (c : nat) :
  _sparse_or_dense_matvecmul H_outer
    (map2 mul h_mid (map (fun i => entry H_outer i c) (seq 0 (num_rows H_outer))))
    true
  = Ok (hessian_column_with_l2 H_outer h_mid None c).
Proof.
  shapes. rewrite matvecmul_adjoint_ok
    by (rewrite map2_length; rewrite ?length_map, ?length_seq; auto).
  unfold hessian_column_with_l2. f_equal.
  apply map_ext. intros j. f_equal. apply map_ext_in. intros i Hi.
  apply in_seq in Hi. f_equal.
  rewrite (map2_nth mul _ _ zero zero)
    by (rewrite ?length_map, ?length_seq; fold N; lia).
  rewrite nth_map_seq by lia. reflexivity.
Qed.

Lemma one_hot_column_ok (coord : Z) (l2 : F) :
  0 <= coord ->
  vadd (hessian_column_with_l2 H_outer h_mid None (Z.to_nat coord))
       (_one_hot_like (hessian_column_with_l2 H_outer h_mid None (Z.to_nat coord))
                      coord (Some (two * l2)%F))
  = Ok (hessian_column_with_l2 H_outer h_mid (Some l2) (Z.to_nat coord)).
Proof.
  intros Hc. unfold hessian_column_with_l2, vadd, _one_hot_like, tf_one_hot.
  rewrite broadcast_same by (rewrite !length_map, !length_seq; reflexivity).
  rewrite length_map, length_seq, map2_map_seq. f_equal.
  apply map_ext. intros i. f_equal.
  destruct (Nat.eqb_spec i (Z.to_nat coord)); destruct (Z.eqb_spec (Z.of_nat i) coord);
    try reflexivity; lia.
Qed.

Lemma hessian_column_length l2 c :
  length (hessian_column_with_l2 H_outer h_mid l2 c) = n.
Proof.
  shapes. unfold hessian_column_with_l2. rewrite length_map, length_seq. auto.
Qed.

Lemma do_update_ok coord delta (var : vec) diff (hess : vec) :
  0 <= coord < Z.of_nat n -> length var = n -> length hess = n ->
  OneStep._do_update H_outer h_mid l2_regularizer (Z.of_nat N) coord delta var
                     diff hess =
  let var' := list_update var (Z.to_nat coord)
                          (nth (Z.to_nat coord) var zero + delta)%F in
  Ok (var',
      ((diff + square delta)%F, var',
       map2 add hess
            (smul delta (hessian_column_with_l2 H_outer h_mid l2_regularizer
                                                (Z.to_nat coord))))).
Proof.
  intros Hc Hv Hh. shapes. unfold OneStep._do_update.
  unfold _sparse_or_dense_matmul_onehot. rewrite tf_gather_ok by lia. cbn [bind].
  unfold vmul at 1. rewrite broadcast_same by (rewrite length_map, length_seq; auto).
  cbn [bind]. rewrite weighted_column_ok. cbn [bind].
  assert (Hwl2 :
    match l2_regularizer with
    | Some l2 =>
        vadd (hessian_column_with_l2 H_outer h_mid None (Z.to_nat coord))
             (_one_hot_like (hessian_column_with_l2 H_outer h_mid None (Z.to_nat coord))
                            coord (Some (two * l2)%F))
    | None => Ok (hessian_column_with_l2 H_outer h_mid None (Z.to_nat coord))
    end = Ok (hessian_column_with_l2 H_outer h_mid l2_regularizer (Z.to_nat coord))).
  { destruct l2_regularizer; [apply one_hot_column_ok; lia | reflexivity]. }
  rewrite Hwl2. clear Hwl2. cbn [bind].
  rewrite tf_index_ok by (unfold size; lia). cbn [bind].
  rewrite tf_scatter_update_ok by (unfold size; lia). cbn [bind].
  unfold vadd. rewrite broadcast_same.
  - reflexivity.
  - unfold smul. rewrite length_map, hessian_column_length. lia.
Qed.

Variable tolerance : F.
Variable maximum_full_sweeps : Z.

Let budget := maximum_full_sweeps * Z.of_nat n.
Let threshold := x_update_diff_norm_sq_convergence_threshold tolerance x_start.

Hypothesis Hbudget : is_int32 budget.

Ltac budget := pose proof Hbudget as Hb; unfold is_int32 in Hb.

Local Abbreviation cond := (sweep_cond x_start tolerance maximum_full_sweeps).
Local Abbreviation body :=
  (sweep_body H_outer h_mid x_start l1_regularizer l2_regularizer learning_rate grad).

Lemma sweep_cond_eq s :
  cond s = Ok ((OneStep.iter_ (snd s) <? budget)
               && negb (sweep_complete n s
                        && less (OneStep.x_update_diff_norm_sq (snd s)) threshold)).
Proof.
  shapes. budget.
  unfold sweep_cond, OneStep.cond, OneStep._loop_cond, size. fold n.
  rewrite int32_floormod_ok by lia. cbn [bind].
  unfold int32_mul. rewrite int32_wrap_small by (fold budget; lia).
  reflexivity.
Qed.

Lemma sweep_body_eq s :
  sweep_state_ok n budget s -> OneStep.iter_ (snd s) < budget ->
  exists delta,
    OneStep.compute_delta H_outer h_mid x_start l1_regularizer l2_regularizer
      learning_rate (Z.of_nat N) grad (OneStep.iter_ (snd s) mod Z.of_nat n)
      (OneStep.x_update (snd s)) (OneStep.hess_matmul_x_update (snd s)) = Ok delta
    /\ body s = Ok (next_state H_outer h_mid l2_regularizer n s delta).
Proof.
  intros (Hvar & Hxu & Hh & Hi) Hlt. shapes. budget.
  assert (Hc : 0 <= OneStep.iter_ (snd s) mod Z.of_nat n < Z.of_nat n)
    by (apply Z.mod_pos_bound; lia).
  destruct (compute_delta_ok _ _ Hc Hxu Hh) as [delta Hd].
  exists delta. split; [exact Hd|].
  unfold sweep_body, OneStep.body, OneStep._loop_body, size. fold n N.
  rewrite int32_floormod_ok by lia. cbn [bind]. rewrite Hd. cbn [bind].
  unfold next_state, int32_add. rewrite int32_wrap_small by lia.
  destruct (tf_equal delta zero); [reflexivity|].
  rewrite do_update_ok by (rewrite ?Hvar; auto). reflexivity.
Qed.

Lemma next_state_ok s delta :
  sweep_state_ok n budget s -> OneStep.iter_ (snd s) < budget ->
  sweep_state_ok n budget (next_state H_outer h_mid l2_regularizer n s delta).
Proof.
  intros (Hvar & Hxu & Hh & Hi) Hlt. unfold next_state, sweep_state_ok.
  destruct (tf_equal delta zero); cbn [fst snd OneStep.iter_ OneStep.x_update
    OneStep.hess_matmul_x_update]; repeat split; auto; try lia.
  - rewrite list_update_length, Hvar. auto.
  - rewrite map2_length; auto.
    unfold smul. rewrite length_map, hessian_column_length. lia.
Qed.

Lemma sweep_cond_true s :
  cond s = Ok true -> OneStep.iter_ (snd s) < budget.
Proof.
  rewrite sweep_cond_eq. intros H. inversion H as [H1].
  apply andb_prop in H1. destruct H1 as [H1 _]. apply Z.ltb_lt. exact H1.
Qed.

Lemma sweep_step_ok s s' :
  sweep_state_ok n budget s -> loop_step cond body s s' ->
  sweep_state_ok n budget s' /\ OneStep.iter_ (snd s') = OneStep.iter_ (snd s) + 1.
Proof.
  intros Hinv [Hc Hb]. apply sweep_cond_true in Hc.
  destruct (sweep_body_eq Hinv Hc) as (delta & _ & Hb').
  rewrite Hb' in Hb. inversion Hb; subst s'. split.
  - apply next_state_ok; assumption.
  - unfold next_state. destruct (tf_equal delta zero); reflexivity.
Qed.

(** The sweep terminates: with fuel for the whole budget the loop returns. *)
Lemma sweep_loop_returns fuel s0 :
  sweep_state_ok n budget s0 ->
  (Z.to_nat (budget - OneStep.iter_ (snd s0)) <= fuel)%nat ->
  exists k final,
    iterates cond body k s0 final /\ cond final = Ok false
    /\ sweep_state_ok n budget final
    /\ tf_while_loop fuel cond body s0 = Ok final.
Proof.
  intros Hinv Hfuel.
  destruct (@while_outcome _ cond body (sweep_state_ok n budget)
              (fun s => Z.to_nat (budget - OneStep.iter_ (snd s)))) with (fuel := fuel) (s0 := s0)
    as [(k & final & H)|(k & s & e & _ & Hc & Hs & He & _)]; auto.
  - intros s _. rewrite sweep_cond_eq. eauto.
  - intros s _ Hc. apply sweep_cond_true in Hc. lia.
  - intros s s' Hs Hc Hb. destruct (@sweep_step_ok s s' Hs (conj Hc Hb)) as [? Hi].
    split; [assumption|]. apply sweep_cond_true in Hc. lia.
  - exists k, final. exact H.
  - apply sweep_cond_true in Hc. destruct (sweep_body_eq Hs Hc) as (? & _ & Hb).
    congruence.
Qed.

(** The loop stops on a sweep boundary. *)
Lemma sweep_stops_on_boundary s :
  sweep_state_ok n budget s -> cond s = Ok false ->
  OneStep.iter_ (snd s) mod Z.of_nat n = 0
  /\ (0 < budget -> 0 < OneStep.iter_ (snd s)).
Proof.
  intros (_ & _ & _ & Hi). shapes.
  rewrite sweep_cond_eq. intros H. inversion H as [H1].
  apply andb_false_iff in H1. destruct H1 as [H1|H1].
  - apply Z.ltb_ge in H1.
    assert (Hcases : OneStep.iter_ (snd s) = budget \/ OneStep.iter_ (snd s) = 0) by lia.
    destruct Hcases as [E|E]; rewrite E.
    + split; [|lia]. unfold budget. apply Z.mod_mul. lia.
    + split; [apply Z.mod_0_l; lia | lia].
  - apply negb_false_iff, andb_prop in H1. destruct H1 as [H1 _].
    unfold sweep_complete in H1. apply andb_prop in H1. destruct H1 as [Ha Hb].
    apply Z.ltb_lt in Ha. apply Z.eqb_eq in Hb. auto.
Qed.
End SweepRun.

(* ================================================================== *)
(** * Tactics and list lemmas *)

(** Inversion of a successful [bind]. *)
Lemma bind_ok {A B : Type} (c : result A) (k : A -> result B) (b : B) :
  bind c k = Ok b -> exists a, c = Ok a /\ k a = Ok b.
Proof. destruct c; simpl; [eauto | discriminate]. Qed.

Ltac bind_inv H :=
  let a := fresh "a" in
  let Ha := fresh "Hbind" in
  apply bind_ok in H; destruct H as (a & Ha & H).

(** Goals about the lengths of mapped and zipped lists. *)
Ltac lens :=
  repeat first [ rewrite length_map | rewrite length_seq | rewrite repeat_length
               | rewrite map2_length ];
  try congruence; try lia; auto.

Lemma list_eq_map_seq {A : Type} (l : list A) (f : nat -> A) (d : A) (n : nat) :
  length l = n ->
  (forall i, (i < n)%nat -> nth i l d = f i) ->
  l = map f (seq 0 n).
Proof.
  intros Hn H. subst n. apply (nth_ext _ _ d d).
  - rewrite length_map, length_seq. reflexivity.
  - intros i Hi. rewrite H by assumption.
    rewrite (nth_indep _ d (f 0%nat)) by (rewrite length_map, length_seq; lia).
    rewrite map_nth, seq_nth by lia. reflexivity.
Qed.

(* ================================================================== *)
(** * The sweep: return value, convergence, the skip and the reset *)

Section SweepTheorems.
Context {D : dtype}.

Variable fuel : nat.
Variable gradient : vec.
Variable H_outer : matrix.
Variable h_mid x_start : vec.
Variable tolerance l1_regularizer : F.
Variable l2_regularizer : option F.
Variable maximum_full_sweeps : Z.
Variable learning_rate : option F.
Variable x_update_var : option vec.

Let n := length x_start.
Let budget := maximum_full_sweeps * size x_start.
Let threshold := x_update_diff_norm_sq_convergence_threshold tolerance x_start.
Let init := initial_loop_vars (get_x_update_var x_update_var x_start).

Local Abbreviation cond := (sweep_cond x_start tolerance maximum_full_sweeps).
Local Abbreviation body grad :=
  (sweep_body H_outer h_mid x_start l1_regularizer l2_regularizer learning_rate grad).

Lemma get_x_update_var_length :
  match x_update_var with Some var => length var = n | None => True end ->
  length (get_x_update_var x_update_var x_start) = n.
Proof.
  unfold get_x_update_var. destruct x_update_var; intros H; auto.
  apply tf_zeros_length.
Qed.

(** The whole run of the sweep on well-shaped inputs. *)
Lemma sweep_run :
  sweep_inputs_ok gradient H_outer h_mid x_start maximum_full_sweeps x_update_var ->
  (Z.to_nat budget <= fuel)%nat ->
  exists grad k final,
    grad_loss_with_l2 gradient x_start l2_regularizer = Ok grad
    /\ iterates cond (body grad) k init final
    /\ cond final = Ok false
    /\ sweep_state_ok n budget final
    /\ tf_while_loop fuel cond (body grad) init = Ok final
    /\ minimize_sparse_one_step fuel gradient H_outer h_mid x_start tolerance
         l1_regularizer l2_regularizer maximum_full_sweeps learning_rate
         x_update_var
       = Ok (map2 add x_start (OneStep.x_update (snd final)),
             less (OneStep.x_update_diff_norm_sq (snd final)) threshold,
             OneStep.iter_ (snd final) / size x_start,
             fst final).
Proof.
  intros [Hn Hg Ho Hm HnN Hv Hb] Hfuel.
  destruct (grad_loss_with_l2_ok gradient x_start l2_regularizer Hg) as (grad & Hgrad & Hlen).
  assert (Hshape : sweep_shapes_ok H_outer h_mid x_start grad) by (constructor; auto).
  assert (Hinit : sweep_state_ok n budget init).
  { apply initial_state_ok. apply get_x_update_var_length. exact Hv. }
  destruct (@sweep_loop_returns D H_outer h_mid x_start l1_regularizer
              l2_regularizer learning_rate grad Hshape tolerance
              maximum_full_sweeps Hb fuel init Hinit)
    as (k & final & Hit & Hc & Hinv & Hrun).
  { unfold init, initial_loop_vars. simpl. rewrite Z.sub_0_r. exact Hfuel. }
  exists grad, k, final.
  split; [exact Hgrad|]. split; [exact Hit|]. split; [exact Hc|].
  split; [exact Hinv|]. split; [exact Hrun|].
  unfold minimize_sparse_one_step. cbv zeta. rewrite Hgrad. cbn [bind].
  unfold sweep_cond, sweep_body in Hrun. fold init. rewrite Hrun. cbn [bind].
  unfold vadd. rewrite broadcast_same; [reflexivity|].
  destruct Hinv as (_ & Hxu & _). rewrite Hxu. reflexivity.
Qed.

Lemma sweep_visits_ok grad s :
  sweep_shapes_ok H_outer h_mid x_start grad -> is_int32 budget ->
  match x_update_var with Some var => length var = n | None => True end ->
  visits cond (body grad) init s -> sweep_state_ok n budget s.
Proof.
  intros Hshape Hb Hv Hvis.
  eapply visits_invariant; [| exact Hvis |].
  - intros a b Ha Hab. eapply sweep_step_ok; eauto.
  - apply initial_state_ok, get_x_update_var_length, Hv.
Qed.


(** C1, amended.  On well-shaped inputs, with fuel for the budget, the sweep
    returns, and: when [maximum_full_sweeps >= 1], the flag it reports is
    true exactly when the run reached a state on a sweep boundary
    ([iter > 0], [iter mod n = 0]) whose accumulator is below the threshold;
    when [maximum_full_sweeps <= 0], no iteration runs and the flag is the
    test of the zero accumulator, [0 < threshold]; in every state of the
    run, the loop stops exactly when [iter >= maximum_full_sweeps * n] or
    convergence is detected on a sweep boundary. *)
Theorem sweep_convergence_at_boundaries :
  sweep_inputs_ok gradient H_outer h_mid x_start maximum_full_sweeps x_update_var ->
  (Z.to_nat budget <= fuel)%nat ->
  exists grad x converged sweeps var,
    grad_loss_with_l2 gradient x_start l2_regularizer = Ok grad
    /\ minimize_sparse_one_step fuel gradient H_outer h_mid x_start tolerance
         l1_regularizer l2_regularizer maximum_full_sweeps learning_rate
         x_update_var = Ok (x, converged, sweeps, var)
    /\ (1 <= maximum_full_sweeps ->
        (converged = true <->
         exists s, visits cond (body grad) init s
                   /\ 0 < OneStep.iter_ (snd s)
                   /\ OneStep.iter_ (snd s) mod size x_start = 0
                   /\ less (OneStep.x_update_diff_norm_sq (snd s)) threshold = true))
    /\ (maximum_full_sweeps <= 0 ->
        converged = less zero threshold /\ sweeps = 0
        /\ forall s, visits cond (body grad) init s -> OneStep.iter_ (snd s) = 0)
    /\ (forall s, visits cond (body grad) init s ->
          (cond s = Ok false <->
           (maximum_full_sweeps * size x_start <= OneStep.iter_ (snd s)
            \/ (0 < OneStep.iter_ (snd s)
                /\ OneStep.iter_ (snd s) mod size x_start = 0
                /\ less (OneStep.x_update_diff_norm_sq (snd s)) threshold = true)))).
Proof.
  intros Hok Hfuel.
  destruct (sweep_run Hok Hfuel) as (grad & k & final & Hg & Hit & Hc & Hinv & Hloop & Hrun).
  destruct Hok as [Hn Hgr Ho Hm HnN Hv Hb].
  destruct (grad_loss_with_l2_ok gradient x_start l2_regularizer Hgr) as (grad' & Hg' & Hlen).
  assert (Heq : grad' = grad) by congruence. subst grad'.
  assert (Hshape : sweep_shapes_ok H_outer h_mid x_start grad) by (constructor; auto).
  assert (Hstop : forall s, visits cond (body grad) init s ->
            (cond s = Ok false <->
             (maximum_full_sweeps * size x_start <= OneStep.iter_ (snd s)
              \/ (0 < OneStep.iter_ (snd s)
                  /\ OneStep.iter_ (snd s) mod size x_start = 0
                  /\ less (OneStep.x_update_diff_norm_sq (snd s)) threshold = true)))).
  { intros s Hs.
    rewrite (sweep_cond_eq Hshape tolerance maximum_full_sweeps Hb s).
    unfold sweep_complete, size. fold threshold.
    split.
    - intros Heq. inversion Heq as [Hx]. apply andb_false_iff in Hx.
      destruct Hx as [Hx|Hx].
      + left. apply Z.ltb_ge in Hx. lia.
      + right. apply negb_false_iff in Hx. apply andb_prop in Hx.
        destruct Hx as [Hx1 Hx2]. apply andb_prop in Hx1.
        destruct Hx1 as [Hx3 Hx4].
        apply Z.ltb_lt in Hx3. apply Z.eqb_eq in Hx4. auto.
    - intros [Hx|(Hx1 & Hx2 & Hx3)]; f_equal; apply andb_false_iff.
      + left. apply Z.ltb_ge. lia.
      + right. apply negb_false_iff. rewrite Hx3, andb_true_r.
        apply andb_true_intro. split; [apply Z.ltb_lt | apply Z.eqb_eq]; auto. }
  exists grad, (map2 add x_start (OneStep.x_update (snd final))),
    (less (OneStep.x_update_diff_norm_sq (snd final)) threshold),
    (OneStep.iter_ (snd final) / size x_start), (fst final).
  split; [exact Hg|]. split; [exact Hrun|]. split; [|split; [|exact Hstop]].
  - intros Hmax.
    destruct (sweep_stops_on_boundary Hshape tolerance maximum_full_sweeps Hb Hinv Hc)
      as [Hmod Hpos].
    split.
    + intros Hconv. exists final. repeat split; auto.
      * eapply iterates_visits; eauto.
      * apply Hpos. unfold size in *. nia.
    + intros (s & Hs & Hi & Hm' & Hl).
      assert (Heq : s = final).
      { eapply while_stops_once; eauto. apply Hstop; auto. }
      subst s. exact Hl.
  - intros Hmax.
    assert (Hc0 : cond init = Ok false).
    { apply Hstop; [apply visits_here|]. left. unfold init, initial_loop_vars.
      simpl. unfold size. nia. }
    assert (Hfin : init = final).
    { eapply while_stops_once; eauto. apply visits_here. }
    rewrite <- Hfin. split; [reflexivity|]. split; [reflexivity|].
    intros s Hs. inversion Hs as [|s0 s1 s2 [Hct _]]; subst; [reflexivity|].
    change (cond init = Ok true) in Hct. rewrite Hc0 in Hct. discriminate.
Qed.
End SweepTheorems.

Section StepTheorems.
Context {D : dtype}.

Variable H_outer : matrix.
Variable h_mid x_start : vec.
Variable l1_regularizer : F.
Variable l2_regularizer learning_rate : option F.
Variable dims num_samples : Z.
Variable grad : vec.

Local Abbreviation compute_delta :=
  (OneStep.compute_delta H_outer h_mid x_start l1_regularizer l2_regularizer
                         learning_rate num_samples grad).
Local Abbreviation _loop_body :=
  (OneStep._loop_body H_outer h_mid x_start l1_regularizer l2_regularizer
                      learning_rate dims num_samples grad).
Local Abbreviation _do_update :=
  (OneStep._do_update H_outer h_mid l2_regularizer num_samples).

Lemma do_update_result coord delta var diff hess var' diff' xu' hess' :
  _do_update coord delta var diff hess = Ok (var', (diff', xu', hess')) ->
  diff' = (diff + square delta)%F /\ xu' = var'.
Proof.
  unfold OneStep._do_update. intros H.
  repeat bind_inv H. inversion H; subst. auto.
Qed.

(** C7, amended.  When the computed [delta] equals 0, the iteration returns
    the variable, [x_update] and [hess_matmul_x_update] unchanged and
    advances the counter, without running [_do_update]; the accumulator
    [x_update_diff_norm_sq] is unchanged too, except on the first
    coordinate of a sweep, where it is reset to 0. *)
Theorem skip_when_delta_is_zero (x_update_var : vec) (vars : OneStep.loop_vars)
        (coord : Z) (delta : F) :
  int32_floormod (OneStep.iter_ vars) dims = Ok coord ->
  compute_delta coord (OneStep.x_update vars) (OneStep.hess_matmul_x_update vars)
  = Ok delta ->
  tf_equal delta zero = true ->
  _loop_body x_update_var vars
  = Ok (x_update_var,
        {| OneStep.iter_ := int32_add (OneStep.iter_ vars) 1;
           OneStep.x_update_diff_norm_sq :=
             if coord =? 0 then zero else OneStep.x_update_diff_norm_sq vars;
           OneStep.x_update := OneStep.x_update vars;
           OneStep.hess_matmul_x_update := OneStep.hess_matmul_x_update vars |}).
Proof.
  intros Hcoord Hdelta Hzero. unfold OneStep._loop_body.
  rewrite Hcoord. cbn [bind]. rewrite Hdelta. cbn [bind]. rewrite Hzero.
  reflexivity.
Qed.

(** C8.  On the first coordinate of a sweep ([iter mod n = 0]) the
    iteration does not depend on the accumulator it receives: it runs as if
    [x_update_diff_norm_sq] were 0, and hands on 0 (when [delta] is 0) or
    [0 + delta^2]. *)
Theorem diff_norm_reset_at_sweep_boundary (x_update_var : vec)
        (vars : OneStep.loop_vars) :
  int32_floormod (OneStep.iter_ vars) dims = Ok 0 ->
  _loop_body x_update_var vars
  = _loop_body x_update_var
      {| OneStep.iter_ := OneStep.iter_ vars;
         OneStep.x_update_diff_norm_sq := zero;
         OneStep.x_update := OneStep.x_update vars;
         OneStep.hess_matmul_x_update := OneStep.hess_matmul_x_update vars |}
  /\ forall x_update_var' vars',
      _loop_body x_update_var vars = Ok (x_update_var', vars') ->
      exists delta,
        compute_delta 0 (OneStep.x_update vars) (OneStep.hess_matmul_x_update vars)
        = Ok delta
        /\ OneStep.x_update_diff_norm_sq vars'
           = if tf_equal delta zero then zero else (zero + square delta)%F.
Proof.
  intros Hcoord. split.
  - unfold OneStep._loop_body. cbn [OneStep.iter_ OneStep.x_update
      OneStep.hess_matmul_x_update OneStep.x_update_diff_norm_sq].
    rewrite Hcoord. cbn [bind]. reflexivity.
  - intros var' vars' Hbody. unfold OneStep._loop_body in Hbody.
    rewrite Hcoord in Hbody. cbn [bind] in Hbody.
    bind_inv Hbody. rename a into delta. exists delta. split; [assumption|].
    change (0 =? 0) with true in Hbody. cbv iota in Hbody.
    destruct (tf_equal delta zero).
    + inversion Hbody; subst. reflexivity.
    + bind_inv Hbody. destruct a as [v [[d xu] h]].
      inversion Hbody; subst. cbn [OneStep.x_update_diff_norm_sq].
      eapply do_update_result; eauto.
Qed.
End StepTheorems.

(* ================================================================== *)
(** * The outer driver *)

Section DriverTheorems.
Context {D : dtype}.

Variable fuel : nat.
Variable grad_and_hessian_loss_fn : vec -> result (vec * matrix * vec).
Variable x_start : vec.
Variable tolerance l1_regularizer : F.
Variable l2_regularizer : option F.
Variable maximum_iterations maximum_full_sweeps_per_iteration : Z.
Variable learning_rate : option F.
Variable x_update_var : option vec.

Local Abbreviation cond := (Driver.cond (D:=D) maximum_iterations).
Local Abbreviation body :=
  (Driver.body fuel grad_and_hessian_loss_fn tolerance l1_regularizer
               l2_regularizer maximum_full_sweeps_per_iteration learning_rate).
Local Abbreviation init :=
  (get_x_update_var x_update_var x_start, (x_start, false, 0)).

Lemma driver_cond_eq v x c i :
  cond (v, (x, c, i)) = Ok ((i <? maximum_iterations) && negb c).
Proof. reflexivity. Qed.

Lemma driver_body_eq v x c i :
  body (v, (x, c, i))
  = (' (g, h_outer, h_middle) <- grad_and_hessian_loss_fn x ;;
     ' (x', c', _, v') <-
       minimize_sparse_one_step fuel g h_outer h_middle x tolerance
         l1_regularizer l2_regularizer maximum_full_sweeps_per_iteration
         learning_rate (Some v) ;;
     Ok (v', (x', c', int32_add i 1))).
Proof. reflexivity. Qed.

Lemma driver_step s s' :
  is_int32 maximum_iterations -> driver_state_ok maximum_iterations s ->
  cond s = Ok true -> body s = Ok s' ->
  driver_state_ok maximum_iterations s' /\ snd (snd s') = snd (snd s) + 1.
Proof.
  unfold is_int32, driver_state_ok.
  destruct s as [v [[x c] i]]. intros Hmax Hi Hc Hb.
  rewrite driver_cond_eq in Hc. inversion Hc as [Hc'].
  apply andb_prop in Hc'. destruct Hc' as [Hlt _]. apply Z.ltb_lt in Hlt.
  rewrite driver_body_eq in Hb. bind_inv Hb. destruct a as [[g ho] hm].
  bind_inv Hb. destruct a as [[[x' c'] k] v']. inversion Hb; subst.
  cbn [snd] in *. unfold int32_add. rewrite int32_wrap_small by lia. lia.
Qed.

Lemma driver_iterates_count k s0 s :
  is_int32 maximum_iterations -> driver_state_ok maximum_iterations s0 ->
  iterates cond body k s0 s ->
  driver_state_ok maximum_iterations s /\ snd (snd s) = snd (snd s0) + Z.of_nat k.
Proof.
  intros Hmax Hinv Hit. induction Hit as [s|k s0 s1 s [Hc Hb] Hit IH].
  - split; [assumption | lia].
  - destruct (driver_step Hmax Hinv Hc Hb) as [Hinv1 Hi1].
    destruct (IH Hinv1) as [Hinv2 Hi2]. split; [assumption | lia].
Qed.


End DriverTheorems.

(* ================================================================== *)
(** * The adapter and the shapes of [fit_sparse] *)

Section AdapterLemmas.
Context {D : dtype} {Fl : floating D}.

Lemma is_valid_mask_ok (variance grad_mean : vec) :
  length variance = length grad_mean ->
  is_valid_mask variance grad_mean = Ok (map2 sample_is_valid variance grad_mean).
Proof.
  intros Hlen. unfold is_valid_mask, vand.
  rewrite broadcast_same by lens. cbn [bind].
  rewrite broadcast_same by lens. cbn [bind].
  rewrite broadcast_same by lens.
  f_equal. revert variance Hlen.
  induction grad_mean as [|g gs IH]; intros [|v vs] Hlen; simpl in *;
    try discriminate; try reflexivity.
  unfold map2 in *. simpl. f_equal. apply IH. congruence.
Qed.

Lemma mask_if_invalid_ok (is_valid : list bool) (x : vec) (mask : F) :
  length is_valid = length x ->
  _mask_if_invalid is_valid x mask
  = Ok (map2 (fun b xi => masked b xi mask) is_valid x).
Proof.
  intros Hlen. unfold _mask_if_invalid, tf_where, tf_fill_like.
  rewrite Hlen, repeat_length, !Nat.eqb_refl. cbn [andb]. f_equal.
  revert is_valid Hlen.
  induction x as [|a x IH]; intros [|b bs] Hlen; simpl in *;
    try discriminate; try reflexivity.
  unfold map2 in *. simpl. f_equal. apply IH. congruence.
Qed.

Variable model_matrix : matrix.
Variable linear_response response : vec.
Variable model : glm_model.
Variable mean variance grad_mean : vec.

Let N := num_rows model_matrix.

Hypothesis Hmodel : model linear_response = Ok (mean, variance, grad_mean).
Hypothesis Hmean : length mean = N.
Hypothesis Hvariance : length variance = N.
Hypothesis Hgrad_mean : length grad_mean = N.

(** The adapter on a response of the right length. *)
Lemma adapter_ok :
  length response = N ->
  exists grad_log_likelihood,
    _sparse_or_dense_matvecmul model_matrix
      (map (fun i => adapter_v (nth i response zero) (nth i mean zero)
                               (nth i variance zero) (nth i grad_mean zero))
           (seq 0 N)) true = Ok grad_log_likelihood
    /\ _grad_neg_log_likelihood_and_fim model_matrix linear_response response model
       = Ok (vneg grad_log_likelihood,
             map (fun i => adapter_fim (nth i variance zero) (nth i grad_mean zero))
                 (seq 0 N)).
Proof.
  intros Hresp.
  pose proof Hmean as Hm. pose proof Hvariance as Hv. pose proof Hgrad_mean as Hg.
  match goal with
  | |- exists g, _sparse_or_dense_matvecmul _ ?vs true = _ /\ _ =>
      set (vspec := vs)
  end.
  unfold _grad_neg_log_likelihood_and_fim. rewrite Hmodel. cbn [bind].
  rewrite is_valid_mask_ok by congruence. cbn [bind].
  unfold vsub. rewrite broadcast_same by lens. cbn [bind].
  rewrite !mask_if_invalid_ok by lens. cbn [bind].
  unfold vmul. rewrite broadcast_same by lens. cbn [bind].
  unfold vdiv. rewrite broadcast_same by lens. cbn [bind].
  match goal with
  | |- exists _, _ /\ bind (_sparse_or_dense_matvecmul _ ?v true) _ = _ =>
      assert (Hveq : v = vspec)
  end.
  { unfold vspec. apply list_eq_map_seq with (d := zero); [lens|].
    intros i Hi.
    rewrite (map2_nth div _ _ zero zero) by lens.
    rewrite (map2_nth mul _ _ zero zero) by lens.
    rewrite (map2_nth sub _ _ zero zero) by lens.
    rewrite !(map2_nth (fun b xi => masked b xi _) _ _ false zero) by lens.
    rewrite !(map2_nth sample_is_valid _ _ zero zero) by lens.
    reflexivity. }
  rewrite Hveq.
  rewrite matvecmul_adjoint_ok by (unfold vspec; lens).
  cbn [bind]. eexists. split; [reflexivity|].
  unfold vdiv. rewrite broadcast_same by (unfold vsquare; lens).
  cbn [bind]. f_equal. f_equal.
  apply list_eq_map_seq with (d := zero); [unfold vsquare; lens|].
  intros i Hi.
  rewrite (map2_nth div _ _ zero zero) by (unfold vsquare; lens).
  unfold vsquare.
  rewrite (nth_indep _ zero (square zero)) by lens.
  rewrite map_nth.
  rewrite !(map2_nth (fun b xi => masked b xi _) _ _ false zero) by lens.
  rewrite !(map2_nth sample_is_valid _ _ zero zero) by lens.
  reflexivity.
Qed.

(** A response whose length is neither [N] nor 1 is rejected by the
    subtraction [response - mean]. *)
Lemma adapter_rejects_response :
  length response <> N -> length response <> 1%nat -> N <> 1%nat ->
  _grad_neg_log_likelihood_and_fim model_matrix linear_response response model
  = Err InvalidArgument.
Proof.
  intros H1 H2 H3. unfold _grad_neg_log_likelihood_and_fim.
  rewrite Hmodel. cbn [bind].
  rewrite is_valid_mask_ok by congruence. cbn [bind].
  unfold vsub. rewrite broadcast_mismatch by congruence. reflexivity.
Qed.
End AdapterLemmas.

Section IEEELaws.
Variables prec emax : Z.

Lemma ieee_floating_laws :
  @floating_laws (ieee_dtype prec emax) (ieee_floating prec emax).
Proof.
  constructor.
  - reflexivity.
  - intros [s|s| |s m e]; simpl; try discriminate; intros _;
      destruct s; reflexivity.
  - intros [s|s| |s m e]; simpl; try discriminate; intros _;
      destruct s; reflexivity.
  - reflexivity.
Qed.
End IEEELaws.

Section AdapterTheorems.
Context {D : dtype} {Fl : floating D}.

Lemma invalid_sample (variance grad_mean : F) :
  floating_laws ->
  (sample_is_valid variance grad_mean = false <->
   tf_is_finite grad_mean = false \/ tf_equal grad_mean zero = true
   \/ tf_is_finite variance = false \/ less_equal variance zero = true).
Proof.
  intros [Hne Hcmp _ _]. unfold sample_is_valid. rewrite Hne.
  destruct (tf_is_finite grad_mean); destruct (tf_equal grad_mean zero);
    destruct (tf_is_finite variance) eqn:Hfin; simpl;
    try (rewrite (Hcmp _ Hfin)); destruct (less_equal variance zero); simpl;
      intuition congruence.
Qed.

(** C2, amended.  The adapter marks a sample invalid exactly when
    [grad_mean] is non-finite or 0, or [variance] is non-finite or [<= 0];
    it returns [gradient = -(X^T . v)] and [curvature_middle], where entry
    by entry [v = (y - mean) * grad_mean / variance] with [grad_mean]
    replaced by 1 and [variance] by [+inf] on invalid samples, and
    [curvature_middle = grad_mean^2 / variance] with [grad_mean] replaced by
    0 and [variance] by [+inf] on invalid samples.  An invalid sample has
    [curvature_middle] equal to 0, and [v] equal to 0 whenever its residual
    [y - mean] is finite. *)
Theorem adapter_masks_invalid_samples
        (model_matrix : matrix) (linear_response response : vec)
        (model : glm_model) (mean variance grad_mean : vec) :
  floating_laws ->
  model linear_response = Ok (mean, variance, grad_mean) ->
  length mean = num_rows model_matrix ->
  length variance = num_rows model_matrix ->
  length grad_mean = num_rows model_matrix ->
  length response = num_rows model_matrix ->
  exists grad_log_likelihood,
    _sparse_or_dense_matvecmul model_matrix
      (map (fun i => adapter_v (nth i response zero) (nth i mean zero)
                               (nth i variance zero) (nth i grad_mean zero))
           (seq 0 (num_rows model_matrix))) true = Ok grad_log_likelihood
    /\ _grad_neg_log_likelihood_and_fim model_matrix linear_response response model
       = Ok (vneg grad_log_likelihood,
             map (fun i => adapter_fim (nth i variance zero) (nth i grad_mean zero))
                 (seq 0 (num_rows model_matrix)))
    /\ is_valid_mask variance grad_mean
       = Ok (map2 sample_is_valid variance grad_mean)
    /\ forall y m v g : F,
        (sample_is_valid v g = false <->
         tf_is_finite g = false \/ tf_equal g zero = true
         \/ tf_is_finite v = false \/ less_equal v zero = true)
        /\ (sample_is_valid v g = true ->
            adapter_v y m v g = ((y - m) * g / v)%F
            /\ adapter_fim v g = (square g / v)%F)
        /\ (sample_is_valid v g = false ->
            adapter_v y m v g = ((y - m) * one / inf)%F
            /\ adapter_fim v g = (square zero / inf)%F
            /\ tf_equal (adapter_fim v g) zero = true
            /\ (tf_is_finite ((y - m) * one)%F = true ->
                tf_equal (adapter_v y m v g) zero = true)).
Proof.
  intros Hlaws Hmodel Hm Hv Hg Hy.
  destruct (@adapter_ok D Fl model_matrix linear_response response model mean
              variance grad_mean Hmodel Hm Hv Hg Hy)
    as (g & Hg1 & Hg2).
  exists g. split; [exact Hg1|]. split; [exact Hg2|].
  split; [apply is_valid_mask_ok; congruence|].
  intros y m v gm. split; [apply invalid_sample; exact Hlaws|].
  unfold adapter_v, adapter_fim. split.
  - intros ->. split; reflexivity.
  - intros ->. unfold masked. destruct Hlaws as [_ _ Hdiv Hsq].
    repeat split; auto.
Qed.

(** C9, amended.  The optimizer validates no shape itself: a mismatch is
    reported by the tensor operation that meets it.  In [fit_sparse] with at
    least one outer iteration, a coefficient vector whose length differs
    from the number of columns, or a response whose length differs from
    the number of rows when neither length is 1, makes the gradient
    callback fail with [InvalidArgument] -- in [X . x], respectively in
    [response - mean] -- so that no coordinate iteration is run.  A
    response of length 1 is broadcast: it gives what the response repeated
    on every row gives. *)
Theorem shape_mismatch_is_met_by_tensor_ops
        (fuel : nat) (model_matrix : matrix) (response : vec) (model : glm_model)
        (model_coefficients_start : vec) (tolerance l1_regularizer : F)
        (l2_regularizer : option F)
        (maximum_iterations maximum_full_sweeps_per_iteration : Z)
        (learning_rate : option F) (model_coefficients_update_var : option vec) :
  (forall linear_response,
      length linear_response = num_rows model_matrix ->
      exists mean variance grad_mean,
        model linear_response = Ok (mean, variance, grad_mean)
        /\ length mean = num_rows model_matrix
        /\ length variance = num_rows model_matrix
        /\ length grad_mean = num_rows model_matrix) ->
  (length model_coefficients_start <> num_cols model_matrix
   \/ (length response <> num_rows model_matrix
       /\ length response <> 1%nat /\ num_rows model_matrix <> 1%nat) ->
   0 < maximum_iterations -> (0 < fuel)%nat ->
   _grad_neg_log_likelihood_and_fim_fn model_matrix response model
     model_coefficients_start = Err InvalidArgument
   /\ fit_sparse fuel model_matrix response model model_coefficients_start
        tolerance l1_regularizer l2_regularizer maximum_iterations
        maximum_full_sweeps_per_iteration learning_rate
        model_coefficients_update_var = Err InvalidArgument)
  /\ (forall linear_response y,
         length linear_response = num_rows model_matrix ->
         _grad_neg_log_likelihood_and_fim model_matrix linear_response [y] model
         = _grad_neg_log_likelihood_and_fim model_matrix linear_response
             (repeat y (num_rows model_matrix)) model).
Proof.
  intros Hmodel. split.
  - intros Hbad Hmax Hfuel.
    assert (Hcb : _grad_neg_log_likelihood_and_fim_fn model_matrix response model
                    model_coefficients_start = Err InvalidArgument).
    { unfold _grad_neg_log_likelihood_and_fim_fn.
      destruct (Nat.eq_dec (length model_coefficients_start) (num_cols model_matrix))
        as [Heq|Hne].
      - destruct Hbad as [Hbad|(H1 & H2 & H3)]; [contradiction|].
        rewrite matvecmul_ok by assumption. cbn [bind].
        match goal with
        | |- bind (_grad_neg_log_likelihood_and_fim _ ?lr _ _) _ = _ =>
            destruct (Hmodel lr) as (mean & variance & grad_mean & Hm & Hl1 & Hl2 & Hl3);
              [rewrite length_map, length_seq; reflexivity|];
              rewrite (@adapter_rejects_response D Fl model_matrix lr response model
                         mean variance grad_mean Hm Hl1 Hl2 Hl3)
                by assumption
        end.
        reflexivity.
      - rewrite matvecmul_mismatch by assumption. reflexivity. }
    split; [exact Hcb|].
    unfold fit_sparse, minimize_sparse.
    destruct fuel as [|fuel']; [lia|].
    cbn [tf_while_loop]. unfold Driver.cond at 1. cbn [snd Driver._loop_cond].
    destruct (Z.ltb_spec 0 maximum_iterations); [|lia]. cbn [andb negb bind].
    unfold Driver.body at 1. cbn [fst snd Driver._loop_body].
    rewrite Hcb. reflexivity.
  - intros linear_response y Hlr.
    destruct (Hmodel linear_response Hlr) as (mean & variance & grad_mean & Hm & Hl1 & Hl2 & Hl3).
    unfold _grad_neg_log_likelihood_and_fim. rewrite Hm. cbn [bind].
    destruct (is_valid_mask variance grad_mean); [cbn [bind]|reflexivity].
    assert (Hsub : vsub [y] mean = vsub (repeat y (num_rows model_matrix)) mean).
    { unfold vsub. rewrite (broadcast_same sub (repeat y (num_rows model_matrix)) mean)
        by (rewrite repeat_length; congruence).
      unfold broadcast. cbn [length].
      destruct (Nat.eqb_spec 1 (length mean)) as [E|E].
      - f_equal. rewrite <- Hl1, <- E. reflexivity.
      - f_equal. rewrite <- Hl1. clear. unfold map2.
        induction mean as [|m ms IH]; simpl; [reflexivity|]. f_equal. exact IH. }
    rewrite Hsub. reflexivity.
Qed.
End AdapterTheorems.

(* ================================================================== *)
(** * Exact arithmetic: the soft threshold and the curvature product *)

Section ExactArithmetic.
Context {D : dtype}.
Hypothesis Hring : ring_laws.

Lemma dtype_ring_theory : ring_theory zero one add mul sub neg (@eq F).
Proof.
  destruct Hring. constructor; auto.
Qed.

Add Ring dtype_ring : dtype_ring_theory.

Lemma mul_0_r (a : F) : (a * zero = zero)%F.
Proof. ring. Qed.

Section Order.
Hypothesis Horder : order_laws.

Lemma less_irrefl (a : F) : less a a = false.
Proof.
  destruct (less a a) eqn:E; [|reflexivity].
  pose proof (less_asym Horder _ _ E). congruence.
Qed.

Lemma less_neg_l (a : F) : less zero a = true -> less (- a)%F zero = true.
Proof.
  intros H. pose proof (less_add_r Horder _ _ (- a)%F H) as H'.
  replace (zero + - a)%F with (- a)%F in H' by ring.
  replace (a + - a)%F with zero in H' by ring. exact H'.
Qed.

Lemma less_neg_r (a : F) : less a zero = true -> less zero (- a)%F = true.
Proof.
  intros H. pose proof (less_add_r Horder _ _ (- a)%F H) as H'.
  replace (zero + - a)%F with (- a)%F in H' by ring.
  replace (a + - a)%F with zero in H' by ring. exact H'.
Qed.

Lemma not_less_zero (a : F) :
  less a zero = false -> a = zero \/ less zero a = true.
Proof.
  intros H. destruct (less zero a) eqn:E; [right; reflexivity|].
  left. apply (less_total Horder); assumption.
Qed.

Lemma maximum_zero_nonneg (a : F) : less (tf_maximum a zero) zero = false.
Proof.
  rewrite (maximum_def Horder). destruct (less a zero) eqn:E;
    [apply less_irrefl | exact E].
Qed.

Lemma abs_nonneg (a : F) : less (tf_abs a) zero = false.
Proof.
  rewrite (abs_def Horder). destruct (less a zero) eqn:E; [|exact E].
  apply (less_asym Horder). apply less_neg_r. exact E.
Qed.

Lemma sign_mul_abs (a : F) : (tf_sign a * tf_abs a = a)%F.
Proof.
  rewrite (sign_def Horder), (abs_def Horder).
  destruct (less zero a) eqn:Epos.
  - rewrite (less_asym Horder _ _ Epos). ring.
  - destruct (less a zero) eqn:Eneg; [ring|].
    rewrite (less_total Horder _ _ Eneg Epos). ring.
Qed.

Lemma abs_of_nonneg (a : F) : less a zero = false -> tf_abs a = a.
Proof. intros H. rewrite (abs_def Horder), H. reflexivity. Qed.

Lemma abs_neg_of_nonneg (a : F) : less a zero = false -> tf_abs (- a)%F = a.
Proof.
  intros H. rewrite (abs_def Horder).
  destruct (not_less_zero _ H) as [->|Hpos].
  - replace (- zero)%F with zero by ring. rewrite less_irrefl. reflexivity.
  - rewrite (less_neg_l _ Hpos). ring.
Qed.

Lemma sign_of_pos (a : F) : less zero a = true -> tf_sign a = one.
Proof. intros H. rewrite (sign_def Horder), H. reflexivity. Qed.

Lemma sign_of_neg (a : F) : less a zero = true -> tf_sign a = (- one)%F.
Proof.
  intros H. rewrite (sign_def Horder), H, (less_asym Horder _ _ H). reflexivity.
Qed.

Lemma sign_of_zero : tf_sign zero = zero.
Proof. rewrite (sign_def Horder), less_irrefl. reflexivity. Qed.

End Order.

(** ** Sums *)

Lemma fold_add_acc (l : vec) (a : F) :
  fold_left add l a = (a + tf_reduce_sum l)%F.
Proof.
  unfold tf_reduce_sum. revert a. induction l as [|x l IH]; intros a; simpl.
  - ring.
  - rewrite (IH (a + x)%F), (IH (zero + x)%F). ring.
Qed.

Lemma reduce_sum_cons (x : F) (l : vec) :
  tf_reduce_sum (x :: l) = (x + tf_reduce_sum l)%F.
Proof.
  unfold tf_reduce_sum at 1. simpl. rewrite fold_add_acc. ring.
Qed.

Lemma reduce_sum_map_add {A : Type} (f g : A -> F) (l : list A) :
  tf_reduce_sum (map (fun i => (f i + g i)%F) l)
  = (tf_reduce_sum (map f l) + tf_reduce_sum (map g l))%F.
Proof.
  induction l as [|a l IH]; simpl.
  - unfold tf_reduce_sum. simpl. ring.
  - rewrite !reduce_sum_cons, IH. ring.
Qed.

Lemma reduce_sum_map_zero {A : Type} (l : list A) :
  tf_reduce_sum (map (fun _ => zero) l) = zero.
Proof.
  induction l as [|a l IH]; simpl; [reflexivity|].
  rewrite reduce_sum_cons, IH. ring.
Qed.

Lemma reduce_sum_single (c : nat) (v : F) (start len : nat) :
  tf_reduce_sum (map (fun j => if Nat.eqb j c then v else zero) (seq start len))
  = if (start <=? c)%nat && (c <? start + len)%nat then v else zero.
Proof.
  revert start. induction len as [|len IH]; intros start; simpl.
  - destruct (Nat.leb_spec start c); destruct (Nat.ltb_spec c (start + 0));
      simpl; try reflexivity; lia.
  - rewrite reduce_sum_cons, IH.
    destruct (Nat.eqb_spec start c); destruct (Nat.leb_spec start c);
      destruct (Nat.leb_spec (S start) c);
      destruct (Nat.ltb_spec c (S start + len));
      destruct (Nat.ltb_spec c (start + S len)); simpl; try lia; ring.
Qed.

(** ** The running curvature product *)

Section Curvature.
Variable H_outer : matrix.
Variable h_mid : vec.
Variable l2_regularizer : option F.

Let n := num_cols H_outer.
Local Abbreviation M := (hessian_with_l2 H_outer h_mid l2_regularizer).

Lemma hessian_column_entry (i c : nat) :
  (i < n)%nat ->
  nth i (hessian_column_with_l2 H_outer h_mid l2_regularizer c) zero
  = entry M i c.
Proof.
  intros Hi. unfold hessian_column_with_l2. rewrite nth_map_seq by exact Hi.
  cbn [hessian_with_l2 hessian_unregularized_loss entry].
  assert (Hsum :
    tf_reduce_sum
      (map (fun k => (entry H_outer k i * (nth k h_mid zero * entry H_outer k c))%F)
           (seq 0 (num_rows H_outer)))
    = tf_reduce_sum
        (map (fun k => (entry H_outer k i * nth k h_mid zero * entry H_outer k c)%F)
             (seq 0 (num_rows H_outer)))).
  { f_equal. apply map_ext. intros k. ring. }
  rewrite Hsum. unfold l2_curvature.
  destruct l2_regularizer; destruct (Nat.eqb i c); ring.
Qed.

Lemma matvec_zeros : matvec M (tf_zeros n) = tf_zeros n.
Proof.
  unfold matvec. cbn [hessian_with_l2 num_rows num_cols]. fold n.
  unfold tf_zeros at 2.
  assert (Hz : forall len start,
             map (fun i => tf_reduce_sum
                    (map (fun j => (entry M i j * nth j (tf_zeros n) zero)%F)
                         (seq 0 n))) (seq start len) = repeat zero len).
  { induction len as [|len IH]; intros start; simpl; [reflexivity|].
    rewrite IH. f_equal.
    transitivity (tf_reduce_sum (map (fun _ : nat => zero) (seq 0 n))).
    - f_equal. apply map_ext. intros j. rewrite tf_zeros_nth. ring.
    - apply reduce_sum_map_zero. }
  apply Hz.
Qed.

Lemma matvec_update (x : vec) (c : nat) (delta : F) (i : nat) :
  length x = n -> (c < n)%nat ->
  tf_reduce_sum
    (map (fun j => (entry M i j
                    * nth j (list_update x c (nth c x zero + delta)%F) zero)%F)
         (seq 0 n))
  = (tf_reduce_sum (map (fun j => (entry M i j * nth j x zero)%F) (seq 0 n))
     + delta * entry M i c)%F.
Proof.
  intros Hx Hc.
  assert (Hterm : forall j,
    (entry M i j * nth j (list_update x c (nth c x zero + delta)%F) zero)%F
    = (entry M i j * nth j x zero
       + (if Nat.eqb j c then (delta * entry M i c)%F else zero))%F).
  { intros j. rewrite list_update_nth by lia.
    destruct (Nat.eqb_spec j c) as [->|_]; ring. }
  rewrite (map_ext _ _ Hterm), reduce_sum_map_add, reduce_sum_single.
  destruct (Nat.leb_spec 0 c); destruct (Nat.ltb_spec c (0 + n));
    simpl; try lia. reflexivity.
Qed.

(** An update of coordinate [c] by [delta] keeps the product in step. *)
Lemma curvature_product_step (x hess : vec) (c : nat) (delta : F) :
  length x = n -> (c < n)%nat ->
  hess = matvec M x ->
  map2 add hess
       (smul delta (hessian_column_with_l2 H_outer h_mid l2_regularizer c))
  = matvec M (list_update x c (nth c x zero + delta)%F).
Proof.
  intros Hx Hc Hh. subst hess. unfold matvec.
  cbn [hessian_with_l2 num_rows num_cols]. fold n.
  assert (Hlen : length (hessian_column_with_l2 H_outer h_mid l2_regularizer c) = n).
  { unfold hessian_column_with_l2. rewrite length_map, length_seq. reflexivity. }
  apply list_eq_map_seq with (d := zero).
  - rewrite map2_length; unfold smul;
      rewrite ?length_map, ?length_seq; auto.
  - intros i Hi.
    rewrite (map2_nth add _ _ zero zero)
      by (unfold smul; rewrite ?length_map, ?length_seq; auto).
    rewrite nth_map_seq by exact Hi.
    unfold smul.
    rewrite (nth_indep _ zero (delta * zero)%F) by (rewrite length_map; lia).
    rewrite (map_nth (mul delta)), hessian_column_entry by exact Hi.
    rewrite matvec_update by assumption. reflexivity.
Qed.
End Curvature.
End ExactArithmetic.

Lemma int_ring_laws : @ring_laws int_dtype.
Proof.
  constructor; cbv [int_dtype F zero one add sub mul neg]; intros; ring.
Qed.

Lemma int_order_laws : @order_laws int_dtype.
Proof.
  constructor;
    cbv [int_dtype F zero one add neg less tf_sign tf_abs tf_maximum]; intros.
  - apply Z.ltb_lt in H. apply Z.ltb_ge. lia.
  - apply Z.ltb_ge in H, H0. lia.
  - apply Z.ltb_lt in H. apply Z.ltb_lt. lia.
  - destruct (Z.ltb_spec 0 a); destruct (Z.ltb_spec a 0); lia.
  - destruct (Z.ltb_spec a 0); lia.
  - destruct (Z.ltb_spec a b); lia.
Qed.

(* ================================================================== *)
(** * The invariant of the running curvature product *)

Section CurvatureInvariant.
Context {D : dtype}.

Variable gradient : vec.
Variable H_outer : matrix.
Variable h_mid x_start : vec.
Variable tolerance l1_regularizer : F.
Variable l2_regularizer : option F.
Variable maximum_full_sweeps : Z.
Variable learning_rate : option F.
Variable x_update_var : option vec.

Let n := length x_start.
Let budget := maximum_full_sweeps * size x_start.
Let init := initial_loop_vars (get_x_update_var x_update_var x_start).

Local Abbreviation cond := (sweep_cond x_start tolerance maximum_full_sweeps).
Local Abbreviation body grad :=
  (sweep_body H_outer h_mid x_start l1_regularizer l2_regularizer learning_rate grad).
Local Abbreviation M := (hessian_with_l2 H_outer h_mid l2_regularizer).

Hypothesis Hring : ring_laws.

Add Ring dtype_ring_invariant : (dtype_ring_theory Hring).

End CurvatureInvariant.

(* ================================================================== *)
(** * Runs on concrete data *)

(** The sweep of the example, with a budget of two sweeps, converges: its
    second sweep moves nothing. *)
Lemma sweep_convergence_at_boundaries_witness :
  sweep_inputs_ok example_gradient example_outer example_middle example_x_start
                  2 None
  /\ (Z.to_nat (2 * size example_x_start) <= 2)%nat
  /\ exists grad x converged sweeps var,
      grad_loss_with_l2 example_gradient example_x_start None = Ok grad
      /\ minimize_sparse_one_step (D:=float64) 2 example_gradient example_outer
           example_middle example_x_start example_tolerance (f64 0) None 2 None
           None = Ok (x, converged, sweeps, var).
Proof.
  assert (Hok : sweep_inputs_ok example_gradient example_outer example_middle
                                example_x_start 2 None).
  { constructor; simpl; try lia; try reflexivity. unfold is_int32. simpl. lia. }
  assert (Hfuel : (Z.to_nat (2 * size example_x_start) <= 2)%nat) by (simpl; lia).
  split; [exact Hok|]. split; [exact Hfuel|].
  destruct (@sweep_convergence_at_boundaries float64 2 example_gradient
              example_outer example_middle example_x_start example_tolerance
              (f64 0) None 2 None None Hok Hfuel)
    as (grad & x & c & k & v & Hg & Hrun & _).
  exists grad, x, c, k, v. split; assumption.
Defined.

(** C1 as stated fails with a budget of zero sweeps: the sweep reports
    convergence although its run never reaches a state with [iter > 0]. *)
Lemma zero_budget_reports_convergence :
  minimize_sparse_one_step (D:=float64) 4 example_gradient example_outer
    example_middle example_x_start example_tolerance (f64 0) None 0 None None
  = Ok ([f64 0], true, 0, [f64 0])
  /\ ~ (exists s,
          visits (example_cond 0) example_body example_init s
          /\ 0 < OneStep.iter_ (snd s)
          /\ OneStep.iter_ (snd s) mod size example_x_start = 0
          /\ less (OneStep.x_update_diff_norm_sq (snd s))
                  (x_update_diff_norm_sq_convergence_threshold
                     example_tolerance example_x_start) = true).
Proof.
  split; [reflexivity|].
  intros (s & Hs & Hi & _).
  inversion Hs as [|s0 s1 s2 [Hc _]]; subst.
  - simpl in Hi. lia.
  - assert (Hc' : example_cond 0 example_init = Ok false) by reflexivity.
    rewrite Hc' in Hc. discriminate.
Qed.


(** The second iteration of the example computes [delta = 0]. *)
Lemma skip_when_delta_is_zero_witness :
  int32_floormod (OneStep.iter_ (snd example_after_update)) 1 = Ok 0
  /\ OneStep.compute_delta example_outer example_middle example_x_start (f64 0)
       None None 2 example_gradient 0
       (OneStep.x_update (snd example_after_update))
       (OneStep.hess_matmul_x_update (snd example_after_update))
     = Ok (f64 0)
  /\ tf_equal (f64 0) zero = true
  /\ OneStep._loop_body example_outer example_middle example_x_start (f64 0)
       None None 1 2 example_gradient [f64 1] (snd example_after_update)
     = Ok ([f64 1],
           {| OneStep.iter_ := 2;
              OneStep.x_update_diff_norm_sq := f64 0;
              OneStep.x_update := [f64 1];
              OneStep.hess_matmul_x_update := [f64 2] |}).
Proof.
  assert (H1 : int32_floormod (OneStep.iter_ (snd example_after_update)) 1 = Ok 0)
    by reflexivity.
  assert (H2 : OneStep.compute_delta example_outer example_middle example_x_start
                 (f64 0) None None 2 example_gradient 0
                 (OneStep.x_update (snd example_after_update))
                 (OneStep.hess_matmul_x_update (snd example_after_update))
               = Ok (f64 0)) by reflexivity.
  assert (H3 : tf_equal (f64 0) zero = true) by reflexivity.
  split; [exact H1|]. split; [exact H2|]. split; [exact H3|].
  exact (@skip_when_delta_is_zero float64 example_outer example_middle
           example_x_start (f64 0) None None 1 2 example_gradient [f64 1]
           (snd example_after_update) 0 (f64 0) H1 H2 H3).
Defined.

(** C7 as stated fails on the first coordinate of a sweep: the example's
    second iteration computes [delta = 0] and still changes the accumulator,
    from 1 to 0. *)
Lemma skip_resets_accumulator :
  visits (example_cond 2) example_body example_init example_after_update
  /\ (exists delta,
        OneStep.compute_delta example_outer example_middle example_x_start
          (f64 0) None None 2 example_gradient 0
          (OneStep.x_update (snd example_after_update))
          (OneStep.hess_matmul_x_update (snd example_after_update))
        = Ok delta
        /\ tf_equal delta zero = true)
  /\ exists s',
      example_body example_after_update = Ok s'
      /\ OneStep.x_update_diff_norm_sq (snd s')
         <> OneStep.x_update_diff_norm_sq (snd example_after_update).
Proof.
  split; [|split].
  - eapply visits_next; [|apply visits_here].
    split; reflexivity.
  - exists (f64 0). split; reflexivity.
  - exists ([f64 1],
            {| OneStep.iter_ := 2;
               OneStep.x_update_diff_norm_sq := f64 0;
               OneStep.x_update := [f64 1];
               OneStep.hess_matmul_x_update := [f64 2] |}).
    split; [reflexivity|].
    cbn [snd OneStep.x_update_diff_norm_sq example_after_update].
    cbv [f64 ieee_of_Z]. discriminate.
Qed.

Lemma diff_norm_reset_at_sweep_boundary_witness :
  int32_floormod (OneStep.iter_ (snd example_after_update)) 1 = Ok 0
  /\ OneStep._loop_body example_outer example_middle example_x_start (f64 0)
       None None 1 2 example_gradient [f64 1] (snd example_after_update)
     = OneStep._loop_body example_outer example_middle example_x_start (f64 0)
         None None 1 2 example_gradient [f64 1]
         {| OneStep.iter_ := 1;
            OneStep.x_update_diff_norm_sq := zero;
            OneStep.x_update := [f64 1];
            OneStep.hess_matmul_x_update := [f64 2] |}.
Proof.
  assert (H1 : int32_floormod (OneStep.iter_ (snd example_after_update)) 1 = Ok 0)
    by reflexivity.
  split; [exact H1|].
  exact (proj1 (@diff_norm_reset_at_sweep_boundary float64 example_outer
                  example_middle example_x_start (f64 0) None None 1 2
                  example_gradient [f64 1] (snd example_after_update) H1)).
Defined.



(** One valid and one invalid sample (variance [-1]). *)
Lemma adapter_masks_invalid_samples_witness :
  @floating_laws float64 float64_floating
  /\ exists grad_log_likelihood,
      _grad_neg_log_likelihood_and_fim (Fl:=float64_floating) example_outer
        [f64 0; f64 0] [f64 1; f64 0]
        (fun _ => Ok ([f64 0; f64 0], [f64 1; f64 (-1)], [f64 1; f64 1]))
      = Ok (vneg grad_log_likelihood,
            map (fun i => adapter_fim (Fl:=float64_floating)
                            (nth i [f64 1; f64 (-1)] zero)
                            (nth i [f64 1; f64 1] zero))
                (seq 0 (num_rows example_outer))).
Proof.
  split; [apply ieee_floating_laws|].
  destruct (@adapter_masks_invalid_samples float64 float64_floating
              example_outer [f64 0; f64 0] [f64 1; f64 0]
              (fun _ => Ok ([f64 0; f64 0], [f64 1; f64 (-1)], [f64 1; f64 1]))
              [f64 0; f64 0] [f64 1; f64 (-1)] [f64 1; f64 1]
              (ieee_floating_laws 53 1024) eq_refl eq_refl eq_refl eq_refl eq_refl)
    as (g & _ & Hrun & _).
  exists g. exact Hrun.
Defined.

(** C2 as stated fails when the residual is not finite: a sample whose mean,
    variance and mean gradient have overflowed to [+inf] is invalid, and its
    contribution to the gradient is [NaN], not zero. *)
Lemma invalid_sample_with_infinite_mean :
  sample_is_valid (Fl:=float64_floating) f64_inf f64_inf = false
  /\ _grad_neg_log_likelihood_and_fim (Fl:=float64_floating)
       (matrix_of_rows 1 [[f64 1]]) [f64 800] [f64 0]
       (fun _ => Ok ([f64_inf], [f64_inf], [f64_inf]))
     = Ok ([S754_nan], [f64 0])
  /\ tf_equal (dtype:=float64) S754_nan zero = false.
Proof.
  split; [reflexivity|]. split; reflexivity.
Qed.

(** Three responses for two rows. *)
Lemma shape_mismatch_is_met_by_tensor_ops_witness :
  (length [f64 1; f64 2; f64 3] <> num_rows example_outer
   /\ length [f64 1; f64 2; f64 3] <> 1%nat /\ num_rows example_outer <> 1%nat)
  /\ 0 < 1
  /\ (0 < 1)%nat
  /\ fit_sparse (Fl:=float64_floating) 1 example_outer [f64 1; f64 2; f64 3]
       linear_gaussian example_x_start example_tolerance (f64 0) None 1 1 None
       None = Err InvalidArgument.
Proof.
  assert (H1 : length [f64 1; f64 2; f64 3] <> num_rows example_outer
               /\ length [f64 1; f64 2; f64 3] <> 1%nat
               /\ num_rows example_outer <> 1%nat)
    by (simpl; repeat split; lia).
  assert (H2 : 0 < 1) by lia.
  assert (H3 : (0 < 1)%nat) by lia.
  split; [exact H1|]. split; [exact H2|]. split; [exact H3|].
  assert (Hmodel : forall linear_response : @vec float64,
             length linear_response = num_rows example_outer ->
             exists mean variance grad_mean,
               linear_gaussian linear_response = Ok (mean, variance, grad_mean)
               /\ length mean = num_rows example_outer
               /\ length variance = num_rows example_outer
               /\ length grad_mean = num_rows example_outer).
  { intros lr Hlr. unfold linear_gaussian.
    exists lr, (map (fun _ => one) lr), (map (fun _ => one) lr).
    rewrite !length_map. repeat split; assumption. }
  destruct (@shape_mismatch_is_met_by_tensor_ops float64 float64_floating 1
              example_outer [f64 1; f64 2; f64 3] linear_gaussian
              example_x_start example_tolerance (f64 0) None 1 1 None None
              Hmodel) as [Hbad _].
  exact (proj2 (Hbad (or_intror H1) H2 H3)).
Defined.

(** C9 as stated fails on a response of length 1: two rows, one response,
    and [fit_sparse] returns without any error. *)
Lemma response_of_length_one_is_accepted :
  length [f64 1] <> num_rows example_outer
  /\ fit_sparse (Fl:=float64_floating) 2 example_outer [f64 1] linear_gaussian
       example_x_start example_tolerance (f64 0) None 1 1 None None
     = Ok ([f64 1], false, 1, [f64 1]).
Proof.
  split; [simpl; lia | reflexivity].
Qed.



(* ================================================================== *)
(** * Further properties of the helpers *)

Section NoneHelpers.
Variable T : Type.
Variable fn : T -> T -> T.

Lemma reduce_ignoring_nones_from_somes (r : option T) (args : list (option T)) :
  _reduce_ignoring_nones_from fn r args
  = match r with
    | Some a => Some (fold_left fn (somes args) a)
    | None => match somes args with
              | [] => None
              | x :: xs => Some (fold_left fn xs x)
              end
    end.
Proof.
  revert r. induction args as [|[x|] rest IH]; intros r; simpl.
  - destruct r; reflexivity.
  - rewrite IH. destruct r; reflexivity.
  - apply IH.
Qed.

Lemma somes_map_Some (xs : list T) : somes (map Some xs) = xs.
Proof. induction xs as [|x xs IH]; simpl; congruence. Qed.

(** X1.  [_reduce_ignoring_nones] drops the arguments that are [None] and folds
    [fn] from the left over the others; it returns [None] exactly when
    every argument is [None]. *)
Theorem reduce_ignoring_nones_drops_nones (args : list (option T)) :
  _reduce_ignoring_nones fn args
  = match somes args with
    | [] => None
    | x :: xs => Some (fold_left fn xs x)
    end
  /\ (_reduce_ignoring_nones fn args = None
      <-> forall a, In a args -> a = None).
Proof.
  assert (Heq : _reduce_ignoring_nones fn args
                = match somes args with
                  | [] => None
                  | x :: xs => Some (fold_left fn xs x)
                  end).
  { exact (reduce_ignoring_nones_from_somes None args). }
  split; [exact Heq|]. rewrite Heq. clear Heq.
  induction args as [|[x|] rest IH]; simpl.
  - split; [intros _ a [] | reflexivity].
  - split; [discriminate|]. intros H. specialize (H (Some x) (or_introl eq_refl)).
    discriminate.
  - rewrite IH. split.
    + intros H a [<-|Ha]; auto.
    + intros H a Ha. apply H. right. exact Ha.
Qed.

(** X2.  [_reduce_exiting_on_none] returns [None] as soon as one argument is
    [None] (and on no argument at all); otherwise it folds [fn] from the
    left over all the arguments. *)
Theorem reduce_exiting_on_none_any_none (args : list (option T)) :
  (In None args -> _reduce_exiting_on_none fn args = None)
  /\ _reduce_exiting_on_none fn [] = None
  /\ (forall x xs, args = map Some (x :: xs) ->
        _reduce_exiting_on_none fn args = Some (fold_left fn xs x)).
Proof.
  split; [|split].
  - intros H. unfold _reduce_exiting_on_none.
    assert (E : existsb is_none args = true).
    { apply existsb_exists. exists None. split; [exact H | reflexivity]. }
    rewrite E. reflexivity.
  - reflexivity.
  - intros x xs ->. unfold _reduce_exiting_on_none.
    assert (E : existsb is_none (map Some (x :: xs)) = false).
    { generalize (x :: xs). intros l. induction l as [|a l IH]; simpl; auto. }
    rewrite E. unfold _reduce_ignoring_nones.
    rewrite reduce_ignoring_nones_from_somes, somes_map_Some. reflexivity.
Qed.
End NoneHelpers.

Lemma reduce_exiting_on_none_any_none_witness :
  In None [Some 2; None; Some 3]
  /\ _reduce_exiting_on_none Z.mul [Some 2; None; Some 3] = None.
Proof.
  assert (H : In None [Some 2; None; Some 3]) by (simpl; auto).
  split; [exact H|].
  exact (proj1 (reduce_exiting_on_none_any_none Z.mul [Some 2; None; Some 3]) H).
Defined.

Lemma reduce_ignoring_nones_drops_nones_witness :
  _reduce_ignoring_nones Z.add [None; Some 2; None; Some 3] = Some 5
  /\ _reduce_ignoring_nones Z.add [None; None] = None.
Proof.
  split.
  - rewrite (proj1 (reduce_ignoring_nones_drops_nones Z.add [None; Some 2; None; Some 3])).
    reflexivity.
  - apply (proj2 (reduce_ignoring_nones_drops_nones Z.add [None; None])).
    intros a [<-|[<-|[]]]; reflexivity.
Defined.

Section Shapes2.
Context {D : dtype}.

Lemma list_update_nth_other (x : vec) i j v d :
  j <> i -> nth j (list_update x i v) d = nth j x d.
Proof.
  revert i j. induction x as [|h t IH]; intros [|i] [|j] Hne; simpl;
    try reflexivity; try congruence.
  apply IH. congruence.
Qed.

(** X3.  [_sparse_or_dense_matvecmul] accepts a vector exactly when its length is
    the contracted dimension of the matrix -- the number of columns, or of
    rows under [adjoint_a=True] -- and returns a vector of the other
    dimension; any other length is an [InvalidArgument] error. *)
Theorem matvecmul_shapes (m : matrix) (v : vec) (adjoint_a : bool) :
  let contracted := if adjoint_a then num_rows m else num_cols m in
  let kept := if adjoint_a then num_cols m else num_rows m in
  (length v = contracted ->
   exists r, _sparse_or_dense_matvecmul m v adjoint_a = Ok r /\ length r = kept)
  /\ (length v <> contracted ->
      _sparse_or_dense_matvecmul m v adjoint_a = Err InvalidArgument).
Proof.
  cbv zeta. split.
  - intros H. destruct adjoint_a.
    + rewrite matvecmul_adjoint_ok by exact H. eexists. split; [reflexivity|].
      rewrite length_map, length_seq. reflexivity.
    + rewrite matvecmul_ok by exact H. eexists. split; [reflexivity|].
      rewrite length_map, length_seq. reflexivity.
  - intros H. destruct adjoint_a.
    + unfold _sparse_or_dense_matvecmul, _sparse_or_dense_matmul, tf_matmul.
      cbn [transpose num_cols num_rows newaxis entry].
      destruct (Nat.eqb_spec (num_rows m) (length v)); [congruence | reflexivity].
    + apply matvecmul_mismatch. exact H.
Qed.
End Shapes2.

Lemma matvecmul_shapes_witness :
  length example_middle = num_rows example_outer
  /\ (exists r, _sparse_or_dense_matvecmul example_outer example_middle true = Ok r
                /\ length r = num_cols example_outer)
  /\ length example_middle <> num_cols example_outer
  /\ _sparse_or_dense_matvecmul example_outer example_middle false
     = Err InvalidArgument.
Proof.
  assert (H1 : length example_middle = num_rows example_outer) by reflexivity.
  assert (H2 : length example_middle <> num_cols example_outer) by (simpl; lia).
  split; [exact H1|]. split.
  - exact (proj1 (matvecmul_shapes example_outer example_middle true) H1).
  - split; [exact H2|].
    exact (proj2 (matvecmul_shapes example_outer example_middle false) H2).
Defined.

(* ================================================================== *)
(** * Shapes and errors of the sweep, whatever the inputs *)

Section Raises.
Context {D : dtype}.

Lemma raises_only_bind {A B : Type} (P : error -> Prop) (c : result A)
      (k : A -> result B) :
  raises_only P c -> (forall a, c = Ok a -> raises_only P (k a)) ->
  raises_only P (bind c k).
Proof.
  intros Hc Hk e. destruct c as [a|e']; simpl.
  - apply Hk. reflexivity.
  - intros H. apply Hc. inversion H. reflexivity.
Qed.

Lemma raises_only_Ok {A : Type} (P : error -> Prop) (a : A) : raises_only P (Ok a).
Proof. intros e H. discriminate. Qed.

Lemma tf_index_raises (x : vec) i : raises_only is_invalid_argument (tf_index x i).
Proof.
  intros e. unfold tf_index. destruct (_ && _); [discriminate|].
  intros H. inversion H. reflexivity.
Qed.

Lemma tf_gather_raises (m : matrix) j : raises_only is_invalid_argument (tf_gather m j).
Proof.
  intros e. unfold tf_gather. destruct (_ && _); [discriminate|].
  intros H. inversion H. reflexivity.
Qed.

Lemma tf_scatter_update_raises (x : vec) i v :
  raises_only is_invalid_argument (tf_scatter_update x i v).
Proof.
  intros e. unfold tf_scatter_update. destruct (_ && _); [discriminate|].
  intros H. inversion H. reflexivity.
Qed.

Lemma broadcast_raises {A B C : Type} (f : A -> B -> C) xs ys :
  raises_only is_invalid_argument (broadcast f xs ys).
Proof.
  intros e. unfold broadcast. destruct (Nat.eqb _ _); [discriminate|].
  destruct xs as [|x [|x' xs]]; destruct ys as [|y [|y' ys]];
    try discriminate; intros H; inversion H; reflexivity.
Qed.

Lemma matvecmul_raises (m : matrix) (v : vec) adj :
  raises_only is_invalid_argument (_sparse_or_dense_matvecmul m v adj).
Proof.
  unfold _sparse_or_dense_matvecmul, _sparse_or_dense_matmul, tf_matmul.
  destruct (Nat.eqb _ _); cbn [bind].
  - unfold tf_squeeze. cbn [num_cols newaxis].
    rewrite Nat.eqb_refl. apply raises_only_Ok.
  - intros e H. inversion H. reflexivity.
Qed.

Lemma int32_floormod_raises a b :
  raises_only is_invalid_argument (int32_floormod a b).
Proof.
  intros e. unfold int32_floormod. destruct (b =? 0); [|discriminate].
  intros H. inversion H. reflexivity.
Qed.

Lemma mul_ignoring_nones_tensor (a : option F) (b : F) :
  tensor_of (_mul_ignoring_nones [a; Some b])
  = Ok (match a with Some a' => (a' * b)%F | None => b end).
Proof. destruct a; reflexivity. Qed.

Variable H_outer : matrix.
Variable h_mid x_start : vec.
Variable l1_regularizer : F.
Variable l2_regularizer learning_rate : option F.
Variable dims num_samples : Z.
Variable grad : vec.

Lemma hessian_diag_raises coord :
  raises_only is_invalid_argument
    (OneStep._hessian_diag_elt_with_l2 H_outer h_mid l2_regularizer num_samples coord).
Proof.
  unfold OneStep._hessian_diag_elt_with_l2.
  apply raises_only_bind; [apply tf_index_raises|]. intros middle _.
  apply raises_only_bind; [apply tf_gather_raises|]. intros column _.
  rewrite mul_or_none_two. destruct l2_regularizer; apply raises_only_Ok.
Qed.

Lemma compute_delta_raises coord xu hess :
  raises_only is_invalid_argument
    (OneStep.compute_delta H_outer h_mid x_start l1_regularizer l2_regularizer
       learning_rate num_samples grad coord xu hess).
Proof.
  unfold OneStep.compute_delta.
  apply raises_only_bind; [apply tf_index_raises|]. intros xs _.
  apply raises_only_bind; [apply tf_index_raises|]. intros xu' _.
  apply raises_only_bind; [apply hessian_diag_raises|]. intros sd _.
  apply raises_only_bind; [apply tf_index_raises|]. intros g _.
  apply raises_only_bind; [apply tf_index_raises|]. intros h _.
  rewrite !mul_ignoring_nones_tensor. apply raises_only_Ok.
Qed.

Lemma do_update_raises coord delta var diff hess :
  raises_only is_invalid_argument
    (OneStep._do_update H_outer h_mid l2_regularizer num_samples coord delta
       var diff hess).
Proof.
  unfold OneStep._do_update.
  apply raises_only_bind; [apply tf_gather_raises|]. intros column _.
  apply raises_only_bind; [apply broadcast_raises|]. intros weighted _.
  apply raises_only_bind; [apply matvecmul_raises|]. intros hc _.
  apply raises_only_bind.
  { destruct l2_regularizer; [apply broadcast_raises | apply raises_only_Ok]. }
  intros hcl _.
  apply raises_only_bind; [apply tf_index_raises|]. intros old _.
  apply raises_only_bind; [apply tf_scatter_update_raises|]. intros changed _.
  apply raises_only_bind; [apply broadcast_raises|]. intros hess' _.
  apply raises_only_Ok.
Qed.

Lemma loop_body_raises var vars :
  raises_only is_invalid_argument
    (OneStep._loop_body H_outer h_mid x_start l1_regularizer l2_regularizer
       learning_rate dims num_samples grad var vars).
Proof.
  unfold OneStep._loop_body.
  apply raises_only_bind; [apply int32_floormod_raises|]. intros coord _.
  apply raises_only_bind; [apply compute_delta_raises|]. intros delta _.
  destruct (tf_equal delta zero); [apply raises_only_Ok|].
  apply raises_only_bind; [apply do_update_raises|].
  intros [v [[d xu] h]] _. apply raises_only_Ok.
Qed.

Lemma loop_cond_raises maximum_full_sweeps threshold vars :
  raises_only is_invalid_argument
    (OneStep._loop_cond maximum_full_sweeps dims threshold vars).
Proof.
  unfold OneStep._loop_cond.
  apply raises_only_bind; [apply int32_floormod_raises|]. intros coord _.
  apply raises_only_Ok.
Qed.

(** What an iteration that returns has done. *)
Lemma loop_body_inv var vars var' vars' :
  OneStep._loop_body H_outer h_mid x_start l1_regularizer l2_regularizer
    learning_rate dims num_samples grad var vars = Ok (var', vars') ->
  exists coord delta,
    int32_floormod (OneStep.iter_ vars) dims = Ok coord
    /\ OneStep.compute_delta H_outer h_mid x_start l1_regularizer l2_regularizer
         learning_rate num_samples grad coord (OneStep.x_update vars)
         (OneStep.hess_matmul_x_update vars) = Ok delta
    /\ OneStep.iter_ vars' = int32_add (OneStep.iter_ vars) 1
    /\ (tf_equal delta zero = true ->
        var' = var /\ OneStep.x_update vars' = OneStep.x_update vars
        /\ OneStep.hess_matmul_x_update vars' = OneStep.hess_matmul_x_update vars)
    /\ (tf_equal delta zero = false ->
        0 <= coord < size var
        /\ var' = list_update var (Z.to_nat coord)
                    (nth (Z.to_nat coord) var zero + delta)%F
        /\ OneStep.x_update vars' = var').
Proof.
  unfold OneStep._loop_body. intros H.
  bind_inv H. rename a into coord. bind_inv H. rename a into delta.
  exists coord, delta. split; [assumption|]. split; [assumption|].
  destruct (tf_equal delta zero).
  - inversion H; subst. cbn. repeat split; auto; discriminate.
  - bind_inv H. destruct a as [v [[d xu] h]]. inversion H; subst. cbn.
    split; [reflexivity|]. split; [discriminate|]. intros _.
    match goal with
    | Hdo : OneStep._do_update _ _ _ _ _ _ _ _ _ = Ok _ |- _ =>
        unfold OneStep._do_update in Hdo;
        apply bind_ok in Hdo; destruct Hdo as (column & _ & Hdo);
        apply bind_ok in Hdo; destruct Hdo as (weighted & _ & Hdo);
        apply bind_ok in Hdo; destruct Hdo as (hc & _ & Hdo);
        apply bind_ok in Hdo; destruct Hdo as (hcl & _ & Hdo);
        apply bind_ok in Hdo; destruct Hdo as (old & Hold & Hdo);
        apply bind_ok in Hdo; destruct Hdo as (changed & Hchanged & Hdo);
        apply bind_ok in Hdo; destruct Hdo as (hess' & _ & Hdo);
        inversion Hdo; subst
    end.
    unfold tf_index in Hold. unfold tf_scatter_update in Hchanged.
    destruct ((0 <=? coord) && (coord <? size var)) eqn:E; [|discriminate].
    apply andb_prop in E. destruct E as [E1 E2].
    apply Z.leb_le in E1. apply Z.ltb_lt in E2.
    inversion Hold; subst. inversion Hchanged; subst. auto.
Qed.

Lemma compute_delta_reads_middle coord xu hess delta :
  OneStep.compute_delta H_outer h_mid x_start l1_regularizer l2_regularizer
    learning_rate num_samples grad coord xu hess = Ok delta ->
  0 <= coord < size h_mid.
Proof.
  unfold OneStep.compute_delta. intros H.
  apply bind_ok in H. destruct H as (xs & _ & H).
  apply bind_ok in H. destruct H as (xu' & _ & H).
  apply bind_ok in H. destruct H as (sd & Hsd & _).
  unfold OneStep._hessian_diag_elt_with_l2 in Hsd.
  apply bind_ok in Hsd. destruct Hsd as (middle & Hmiddle & _).
  unfold tf_index in Hmiddle.
  destruct ((0 <=? coord) && (coord <? size h_mid)) eqn:E; [|discriminate].
  apply andb_prop in E. destruct E as [E1 E2].
  apply Z.leb_le in E1. apply Z.ltb_lt in E2. lia.
Qed.
End Raises.

Section LoopErrors.
Variable S : Type.
Variable cond : S -> result bool.
Variable body : S -> result S.
Variable P : error -> Prop.

Lemma while_raises fuel s0 :
  (forall s, raises_only P (cond s)) -> (forall s, raises_only P (body s)) ->
  P OutOfFuel ->
  raises_only P (tf_while_loop fuel cond body s0).
Proof.
  intros Hc Hb Hf. revert s0. induction fuel as [|fuel IH]; intros s0; simpl.
  - apply raises_only_bind; [apply Hc|]. intros [|] _.
    + intros e H. inversion H; subst. exact Hf.
    + apply raises_only_Ok.
  - apply raises_only_bind; [apply Hc|]. intros [|] _.
    + apply raises_only_bind; [apply Hb|]. intros s1 _. apply IH.
    + apply raises_only_Ok.
Qed.
End LoopErrors.

Section SweepAnyInput.
Context {D : dtype}.

Variable fuel : nat.
Variable gradient : vec.
Variable H_outer : matrix.
Variable h_mid x_start : vec.
Variable tolerance l1_regularizer : F.
Variable l2_regularizer : option F.
Variable maximum_full_sweeps : Z.
Variable learning_rate : option F.
Variable x_update_var : option vec.

Let init := initial_loop_vars (get_x_update_var x_update_var x_start).

Local Abbreviation cond := (sweep_cond x_start tolerance maximum_full_sweeps).
Local Abbreviation body grad :=
  (sweep_body H_outer h_mid x_start l1_regularizer l2_regularizer learning_rate grad).

Lemma grad_loss_with_l2_raises :
  raises_only is_invalid_argument
    (grad_loss_with_l2 gradient x_start l2_regularizer).
Proof.
  unfold grad_loss_with_l2. rewrite mul_or_none_two.
  destruct l2_regularizer; simpl; [apply broadcast_raises | apply raises_only_Ok].
Qed.

Lemma variable_is_x_update grad s :
  visits cond (body grad) init s -> fst s = OneStep.x_update (snd s).
Proof.
  intros Hv.
  apply (@visits_invariant _ cond (body grad)
           (fun s => fst s = OneStep.x_update (snd s)) init s);
    [| exact Hv | reflexivity].
  intros [var vars] [var' vars'] Ha [_ Hb]. cbn [fst snd] in *.
  unfold sweep_body, OneStep.body in Hb. cbn [fst snd] in Hb.
  apply loop_body_inv in Hb.
  destruct Hb as (coord & delta & _ & _ & _ & Hzero & Hupd).
  destruct (tf_equal delta zero).
  - destruct (Hzero eq_refl) as (-> & -> & _). exact Ha.
  - destruct (Hupd eq_refl) as (_ & _ & ->). reflexivity.
Qed.

(** X4.  The resource variable and the loop variable [x_update] are one: in
    every state of a run the variable holds [x_update], so that the [x]
    returned is [x_start] plus the final contents of the variable.  The
    variable is assigned zeros before the loop: the contents it is given
    play no role, and a variable of the right length gives what a fresh one
    gives. *)
Theorem variable_holds_the_update :
  (forall grad s, visits cond (body grad) init s ->
                  fst s = OneStep.x_update (snd s))
  /\ (forall x converged sweeps var,
        minimize_sparse_one_step fuel gradient H_outer h_mid x_start tolerance
          l1_regularizer l2_regularizer maximum_full_sweeps learning_rate
          x_update_var = Ok (x, converged, sweeps, var) ->
        vadd x_start var = Ok x)
  /\ (forall var : vec,
        length var = length x_start ->
        minimize_sparse_one_step fuel gradient H_outer h_mid x_start tolerance
          l1_regularizer l2_regularizer maximum_full_sweeps learning_rate
          (Some var)
        = minimize_sparse_one_step fuel gradient H_outer h_mid x_start tolerance
            l1_regularizer l2_regularizer maximum_full_sweeps learning_rate
            None).
Proof.
  split; [exact variable_is_x_update|]. split.
  - intros x converged sweeps var Hrun.
    unfold minimize_sparse_one_step in Hrun. cbv zeta in Hrun.
    bind_inv Hrun. rename a into grad. bind_inv Hrun. rename a into final.
    bind_inv Hrun. inversion Hrun; subst.
    apply while_returns in Hbind0. destruct Hbind0 as (k & _ & Hit & _).
    apply iterates_visits in Hit.
    rewrite (@variable_is_x_update grad final Hit). assumption.
  - intros var Hlen. unfold minimize_sparse_one_step, get_x_update_var,
      initial_loop_vars, tf_zeros_like.
    rewrite Hlen, tf_zeros_length. reflexivity.
Qed.

(** X5.  Each iteration of the sweep changes at most one coordinate of
    [x_update], the coordinate [iter mod n], and keeps its shape. *)
Theorem iteration_changes_one_coordinate grad s s' :
  visits cond (body grad) init s -> loop_step cond (body grad) s s' ->
  exists coord,
    int32_floormod (OneStep.iter_ (snd s)) (size x_start) = Ok coord
    /\ OneStep.iter_ (snd s') = int32_add (OneStep.iter_ (snd s)) 1
    /\ length (OneStep.x_update (snd s')) = length (OneStep.x_update (snd s))
    /\ forall i, Z.of_nat i <> coord ->
         nth i (OneStep.x_update (snd s')) zero
         = nth i (OneStep.x_update (snd s)) zero.
Proof.
  intros Hv [_ Hb]. pose proof (variable_is_x_update Hv) as Hvar.
  destruct s as [var vars]. destruct s' as [var' vars']. cbn [fst snd] in *.
  unfold sweep_body, OneStep.body in Hb. cbn [fst snd] in Hb.
  apply loop_body_inv in Hb.
  destruct Hb as (coord & delta & Hcoord & _ & Hiter & Hzero & Hupd).
  exists coord. split; [exact Hcoord|]. split; [exact Hiter|].
  destruct (tf_equal delta zero).
  - destruct (Hzero eq_refl) as (_ & -> & _). split; reflexivity.
  - destruct (Hupd eq_refl) as (Hc & Hv' & ->). subst var' var. split.
    + apply list_update_length.
    + intros i Hi. apply list_update_nth_other. lia.
Qed.

(** X6.  The sweep works with [None] for [l2_regularizer] and [learning_rate]:
    it never uses [None] as a tensor.  Its only errors are the
    [InvalidArgument] of a tensor operation (and, in this model, the
    exhaustion of the fuel). *)
Theorem sweep_raises_only_invalid_argument (e : error) :
  minimize_sparse_one_step fuel gradient H_outer h_mid x_start tolerance
    l1_regularizer l2_regularizer maximum_full_sweeps learning_rate
    x_update_var = Err e ->
  e = InvalidArgument \/ e = OutOfFuel.
Proof.
  revert e.
  change (raises_only (fun e => e = InvalidArgument \/ e = OutOfFuel)
            (minimize_sparse_one_step fuel gradient H_outer h_mid x_start
               tolerance l1_regularizer l2_regularizer maximum_full_sweeps
               learning_rate x_update_var)).
  assert (Hweak : forall (A : Type) (c : result A),
             raises_only is_invalid_argument c ->
             raises_only (fun e => e = InvalidArgument \/ e = OutOfFuel) c).
  { intros A c H e He. left. exact (H e He). }
  unfold minimize_sparse_one_step. cbv zeta.
  apply raises_only_bind; [apply Hweak, grad_loss_with_l2_raises|]. intros grad _.
  apply raises_only_bind.
  { apply while_raises.
    - intros s. apply Hweak. apply loop_cond_raises.
    - intros s. apply Hweak. apply loop_body_raises.
    - right. reflexivity. }
  intros final _.
  apply raises_only_bind; [apply Hweak, broadcast_raises|]. intros x _.
  apply raises_only_Ok.
Qed.

(** X7.  An empty [x_start] is rejected: the loop condition computes
    [iter % dims] with [dims = 0]. *)
Theorem empty_x_start_is_rejected :
  x_start = [] ->
  minimize_sparse_one_step fuel gradient H_outer h_mid x_start tolerance
    l1_regularizer l2_regularizer maximum_full_sweeps learning_rate
    x_update_var = Err InvalidArgument.
Proof.
  intros Hx. unfold minimize_sparse_one_step. cbv zeta.
  destruct (grad_loss_with_l2 gradient x_start l2_regularizer) as [grad|e] eqn:Hg.
  - cbn [bind].
    assert (Hc : forall s, OneStep.cond maximum_full_sweeps (size x_start)
                   (x_update_diff_norm_sq_convergence_threshold tolerance x_start) s
                 = Err InvalidArgument).
    { intros s. rewrite Hx. reflexivity. }
    destruct fuel; simpl; rewrite Hc; reflexivity.
  - rewrite (grad_loss_with_l2_raises Hg). reflexivity.
Qed.

(** X8.  Fewer samples than coefficients: the curvature weight is read at the
    coordinate, [hessian_unregularized_loss_middle[coord]], so that the
    first sweep fails at coordinate [N], the number of samples. *)
Theorem fewer_samples_than_coefficients_is_rejected :
  length h_mid = num_rows H_outer ->
  (num_rows H_outer < length x_start)%nat ->
  1 <= maximum_full_sweeps ->
  is_int32 (maximum_full_sweeps * size x_start) ->
  (num_rows H_outer < fuel)%nat ->
  minimize_sparse_one_step fuel gradient H_outer h_mid x_start tolerance
    l1_regularizer l2_regularizer maximum_full_sweeps learning_rate
    x_update_var = Err InvalidArgument.
Proof.
  intros Hmid HNn Hmax Hbudget Hfuel.
  unfold minimize_sparse_one_step. cbv zeta.
  destruct (grad_loss_with_l2 gradient x_start l2_regularizer) as [grad|e] eqn:Hg;
    [|rewrite (grad_loss_with_l2_raises Hg); reflexivity].
  cbn [bind]. fold init.
  set (N := num_rows H_outer) in *.
  set (c := OneStep.cond maximum_full_sweeps (size x_start)
              (x_update_diff_norm_sq_convergence_threshold tolerance x_start)).
  set (b := OneStep.body H_outer h_mid x_start l1_regularizer l2_regularizer
              learning_rate (size x_start) (Z.of_nat N) grad).
  pose (Inv := fun s : vec * OneStep.loop_vars =>
                 0 <= OneStep.iter_ (snd s) <= Z.of_nat N).
  unfold is_int32 in Hbudget. unfold size in *.
  assert (Hn32 : Z.of_nat (length x_start)
                 <= maximum_full_sweeps * Z.of_nat (length x_start)) by nia.
  assert (Hcond : forall s, Inv s -> c s = Ok true).
  { intros s Hs. unfold Inv in Hs. unfold c, OneStep.cond, OneStep._loop_cond.
    rewrite int32_floormod_ok by lia. cbn [bind].
    unfold int32_mul. rewrite int32_wrap_small by lia.
    rewrite Z.mod_small by lia. f_equal.
    apply andb_true_intro. split.
    - apply Z.ltb_lt. lia.
    - apply negb_true_iff. apply andb_false_iff. left.
      apply andb_false_iff.
      destruct (Z.ltb_spec 0 (OneStep.iter_ (snd s))); [right|left; reflexivity].
      apply Z.eqb_neq. lia. }
  destruct (@while_outcome _ c b Inv
              (fun s => Z.to_nat (Z.of_nat N + 1 - OneStep.iter_ (snd s))))
    with (fuel := fuel) (s0 := init)
    as [(k & final & _ & Hc & Hinv & _)|(k & s & e & _ & _ & _ & He & Hrun)].
  - intros s Hs. exists true. apply Hcond. exact Hs.
  - intros s Hs _. unfold Inv in Hs. lia.
  - intros [var vars] [var' vars'] Hs _ Hb. unfold Inv in *. cbn [snd] in *.
    unfold b, OneStep.body in Hb. cbn [fst snd] in Hb.
    apply loop_body_inv in Hb.
    destruct Hb as (coord & delta & Hcoord & Hdelta & Hiter & _).
    rewrite int32_floormod_ok in Hcoord by lia. inversion Hcoord as [Hco].
    rewrite Z.mod_small in Hco by lia.
    apply compute_delta_reads_middle in Hdelta. unfold size in Hdelta.
    rewrite Hiter. unfold int32_add. rewrite int32_wrap_small by lia.
    split; lia.
  - unfold Inv, init, initial_loop_vars. cbn [snd OneStep.iter_]. lia.
  - unfold init, initial_loop_vars. cbn [snd OneStep.iter_]. lia.
  - rewrite (Hcond _ Hinv) in Hc. discriminate.
  - rewrite Hrun. cbn [bind]. f_equal.
    unfold b, OneStep.body in He.
    exact (@loop_body_raises D H_outer h_mid x_start l1_regularizer
             l2_regularizer learning_rate _ _ grad (fst s) (snd s) e He).
Qed.
End SweepAnyInput.

Lemma variable_holds_the_update_witness :
  length [f64 7] = length example_x_start
  /\ minimize_sparse_one_step (D:=float64) 2 example_gradient example_outer
       example_middle example_x_start example_tolerance (f64 0) None 2 None
       (Some [f64 7])
     = minimize_sparse_one_step (D:=float64) 2 example_gradient example_outer
         example_middle example_x_start example_tolerance (f64 0) None 2 None
         None.
Proof.
  assert (H : length [f64 7] = length example_x_start) by reflexivity.
  split; [exact H|].
  destruct (@variable_holds_the_update float64 2 example_gradient example_outer
              example_middle example_x_start example_tolerance (f64 0) None 2
              None None) as (_ & _ & Hfresh).
  exact (Hfresh [f64 7] H).
Defined.

Lemma iteration_changes_one_coordinate_witness :
  visits (example_cond 2) example_body example_init example_init
  /\ loop_step (example_cond 2) example_body example_init example_after_update
  /\ exists coord,
      int32_floormod (OneStep.iter_ (snd example_init)) (size example_x_start)
      = Ok coord
      /\ forall i, Z.of_nat i <> coord ->
           nth i (OneStep.x_update (snd example_after_update)) zero
           = nth i (OneStep.x_update (snd example_init)) zero.
Proof.
  assert (H1 : visits (example_cond 2) example_body example_init example_init)
    by apply visits_here.
  assert (H2 : loop_step (example_cond 2) example_body example_init
                         example_after_update) by (split; reflexivity).
  split; [exact H1|]. split; [exact H2|].
  destruct (@iteration_changes_one_coordinate float64 example_outer
              example_middle example_x_start example_tolerance (f64 0) None 2
              None None example_gradient example_init example_after_update
              H1 H2) as (coord & Hc & _ & _ & Hframe).
  exists coord. split; assumption.
Defined.

Lemma empty_x_start_is_rejected_witness :
  minimize_sparse_one_step (D:=float64) 2 [] example_outer example_middle []
    example_tolerance (f64 0) None 2 None None = Err InvalidArgument.
Proof.
  exact (@empty_x_start_is_rejected float64 2 [] example_outer example_middle []
           example_tolerance (f64 0) None 2 None None eq_refl).
Defined.

Lemma sweep_raises_only_invalid_argument_witness :
  minimize_sparse_one_step (D:=float64) 2 [] example_outer example_middle []
    example_tolerance (f64 0) None 2 None None = Err InvalidArgument
  /\ (InvalidArgument = InvalidArgument \/ InvalidArgument = OutOfFuel).
Proof.
  assert (H : minimize_sparse_one_step (D:=float64) 2 [] example_outer
                example_middle [] example_tolerance (f64 0) None 2 None None
              = Err InvalidArgument) by reflexivity.
  split; [exact H|].
  exact (@sweep_raises_only_invalid_argument float64 2 [] example_outer
           example_middle [] example_tolerance (f64 0) None 2 None None
           InvalidArgument H).
Defined.

(** One sample, two coefficients. *)
Lemma fewer_samples_than_coefficients_is_rejected_witness :
  length [f64 1] = num_rows (matrix_of_rows 2 [[f64 1; f64 1]])
  /\ (num_rows (matrix_of_rows 2 [[f64 1; f64 1]]) < length [f64 0; f64 0])%nat
  /\ 1 <= 1
  /\ is_int32 (1 * size [f64 0; f64 0])
  /\ (num_rows (matrix_of_rows 2 [[f64 1; f64 1]]) < 2)%nat
  /\ minimize_sparse_one_step (D:=float64) 2 [f64 (-1); f64 (-1)]
       (matrix_of_rows 2 [[f64 1; f64 1]]) [f64 1] [f64 0; f64 0]
       example_tolerance (f64 0) None 1 None None = Err InvalidArgument.
Proof.
  assert (H1 : length [f64 1] = num_rows (matrix_of_rows 2 [[f64 1; f64 1]]))
    by reflexivity.
  assert (H2 : (num_rows (matrix_of_rows 2 [[f64 1; f64 1]])
                < length [f64 0; f64 0])%nat) by (simpl; lia).
  assert (H3 : 1 <= 1) by lia.
  assert (H4 : is_int32 (1 * size [f64 0; f64 0]))
    by (unfold is_int32, size; simpl; lia).
  assert (H5 : (num_rows (matrix_of_rows 2 [[f64 1; f64 1]]) < 2)%nat)
    by (simpl; lia).
  split; [exact H1|]. split; [exact H2|]. split; [exact H3|].
  split; [exact H4|]. split; [exact H5|].
  exact (@fewer_samples_than_coefficients_is_rejected float64 2
           [f64 (-1); f64 (-1)] (matrix_of_rows 2 [[f64 1; f64 1]]) [f64 1]
           [f64 0; f64 0] example_tolerance (f64 0) None 1 None None
           H1 H2 H3 H4 H5).
Defined.

(* ================================================================== *)
(** * Further properties in exact arithmetic *)

Section ExactFurther.
Context {D : dtype}.
Hypothesis Hring : ring_laws.

Add Ring dtype_ring_further : (dtype_ring_theory Hring).

Lemma reduce_sum_scale {A : Type} (c : F) (f : A -> F) (l : list A) :
  tf_reduce_sum (map (fun i => (c * f i)%F) l) = (c * tf_reduce_sum (map f l))%F.
Proof.
  induction l as [|a l IH]; simpl.
  - unfold tf_reduce_sum. simpl. ring.
  - rewrite !(reduce_sum_cons Hring), IH. ring.
Qed.



Section Ordered.
Hypothesis Horder : order_laws.
Hypothesis Htrans : forall a b c : F,
    less a b = true -> less b c = true -> less a c = true.

Lemma less_sub_pos (a b : F) : less a b = true -> less zero (b - a)%F = true.
Proof.
  intros H. pose proof (less_add_r Horder _ _ (- a)%F H) as H'.
  replace (a + - a)%F with zero in H' by ring.
  replace (b + - a)%F with (b - a)%F in H' by ring. exact H'.
Qed.

Lemma less_of_nonneg (t x : F) :
  less t zero = false -> less t x = true -> less zero x = true.
Proof.
  intros Ht Hx. destruct (not_less_zero Horder _ Ht) as [E|E].
  - rewrite <- E. exact Hx.
  - exact (Htrans _ _ _ E Hx).
Qed.

Lemma maximum_of_pos (a : F) : less zero a = true -> tf_maximum a zero = a.
Proof.
  intros H. rewrite (maximum_def Horder), (less_asym Horder _ _ H). reflexivity.
Qed.

Lemma soft_threshold_above (x threshold : F) :
  less threshold zero = false -> less threshold x = true ->
  soft_threshold x threshold = (x - threshold)%F.
Proof.
  intros Ht Hx. pose proof (less_of_nonneg _ _ Ht Hx) as Hpos.
  unfold soft_threshold.
  rewrite (sign_of_pos Horder _ Hpos).
  rewrite (abs_of_nonneg Horder _ (less_asym Horder _ _ Hpos)).
  rewrite (maximum_of_pos _ (less_sub_pos _ _ Hx)). ring.
Qed.

Lemma soft_threshold_below (x threshold : F) :
  less threshold zero = false -> less x (- threshold)%F = true ->
  soft_threshold x threshold = (x + threshold)%F.
Proof.
  intros Ht Hx.
  assert (Hneg : less x zero = true).
  { destruct (not_less_zero Horder _ Ht) as [E|E].
    - rewrite E in Hx. replace (- zero)%F with zero in Hx by ring. exact Hx.
    - exact (Htrans _ _ _ Hx (less_neg_l Hring Horder _ E)). }
  unfold soft_threshold.
  rewrite (sign_of_neg Horder _ Hneg), (abs_def Horder), Hneg.
  pose proof (less_sub_pos _ _ Hx) as Hpos.
  replace (- threshold - x)%F with (- x - threshold)%F in Hpos by ring.
  rewrite (maximum_of_pos _ Hpos). ring.
Qed.

Lemma soft_threshold_inside (x threshold : F) :
  less threshold x = false -> less x (- threshold)%F = false ->
  soft_threshold x threshold = zero.
Proof.
  intros Hup Hlow. unfold soft_threshold.
  assert (Hm : tf_maximum (tf_abs x - threshold)%F zero = zero).
  { rewrite (maximum_def Horder), (abs_def Horder).
    destruct (less x zero) eqn:Eneg.
    - destruct (less (- x - threshold)%F zero) eqn:E; [reflexivity|].
      apply (less_total Horder); [exact E|].
      destruct (less zero (- x - threshold)%F) eqn:E'; [|reflexivity].
      pose proof (less_add_r Horder _ _ x E') as H'.
      replace (zero + x)%F with x in H' by ring.
      replace (- x - threshold + x)%F with (- threshold)%F in H' by ring.
      congruence.
    - destruct (less (x - threshold)%F zero) eqn:E; [reflexivity|].
      apply (less_total Horder); [exact E|].
      destruct (less zero (x - threshold)%F) eqn:E'; [|reflexivity].
      pose proof (less_add_r Horder _ _ threshold E') as H'.
      replace (zero + threshold)%F with threshold in H' by ring.
      replace (x - threshold + threshold)%F with x in H' by ring.
      congruence. }
  rewrite Hm. ring.
Qed.



Lemma soft_threshold_of_zero_threshold (x : F) : soft_threshold x zero = x.
Proof.
  unfold soft_threshold. replace (tf_abs x - zero)%F with (tf_abs x) by ring.
  rewrite (maximum_def Horder), (abs_nonneg Hring Horder).
  apply (sign_mul_abs Hring Horder).
Qed.

End Ordered.
End ExactFurther.

Lemma int_less_trans (a b c : @F int_dtype) :
  less a b = true -> less b c = true -> less a c = true.
Proof.
  cbv [int_dtype F less]. intros H1 H2.
  apply Z.ltb_lt in H1, H2. apply Z.ltb_lt. lia.
Qed.






(* ================================================================== *)
(** * The sweep on well-shaped inputs: counts and fixed points *)

Section SweepCounts.
Context {D : dtype}.

Variable fuel : nat.
Variable gradient : vec.
Variable H_outer : matrix.
Variable h_mid x_start : vec.
Variable tolerance l1_regularizer : F.
Variable l2_regularizer : option F.
Variable maximum_full_sweeps : Z.
Variable learning_rate : option F.
Variable x_update_var : option vec.

Let n := length x_start.
Let budget := maximum_full_sweeps * size x_start.
Let threshold := x_update_diff_norm_sq_convergence_threshold tolerance x_start.
Let init := initial_loop_vars (get_x_update_var x_update_var x_start).

Local Abbreviation cond := (sweep_cond x_start tolerance maximum_full_sweeps).
Local Abbreviation body grad :=
  (sweep_body H_outer h_mid x_start l1_regularizer l2_regularizer learning_rate grad).

Lemma sweep_iterates_count grad k s0 s :
  sweep_shapes_ok H_outer h_mid x_start grad -> is_int32 budget ->
  sweep_state_ok n budget s0 ->
  iterates cond (body grad) k s0 s ->
  OneStep.iter_ (snd s) = OneStep.iter_ (snd s0) + Z.of_nat k.
Proof.
  intros Hshape Hb Hinv Hit. induction Hit as [s|k s0 s1 s Hstep Hit IH].
  - lia.
  - destruct (sweep_step_ok Hshape Hb Hinv Hstep) as [Hinv1 Hi1].
    rewrite (IH Hinv1). lia.
Qed.

(** X14.  On well-shaped inputs the sweep runs [sweeps * n] coordinate
    iterations, where [sweeps] is the count it returns; the count is at
    most [maximum_full_sweeps], and a run that does not report convergence
    has used the whole budget.  The vectors returned have the shape of
    [x_start]. *)
Theorem sweep_count_within_budget :
  sweep_inputs_ok gradient H_outer h_mid x_start maximum_full_sweeps x_update_var ->
  (Z.to_nat budget <= fuel)%nat ->
  exists grad k final x converged sweeps var,
    grad_loss_with_l2 gradient x_start l2_regularizer = Ok grad
    /\ minimize_sparse_one_step fuel gradient H_outer h_mid x_start tolerance
         l1_regularizer l2_regularizer maximum_full_sweeps learning_rate
         x_update_var = Ok (x, converged, sweeps, var)
    /\ iterates cond (body grad) k init final
    /\ cond final = Ok false
    /\ Z.of_nat k = sweeps * size x_start
    /\ 0 <= sweeps <= Z.max 0 maximum_full_sweeps
    /\ (converged = false -> sweeps = Z.max 0 maximum_full_sweeps)
    /\ length x = length x_start
    /\ length var = length x_start.
Proof.
  intros Hok Hfuel.
  destruct (sweep_run tolerance l1_regularizer l2_regularizer learning_rate
              Hok Hfuel)
    as (grad & k & final & Hg & Hit & Hc & Hinv & _ & Hrun).
  destruct Hok as [Hn Hgr Ho Hm HnN Hv Hb].
  destruct (grad_loss_with_l2_ok gradient x_start l2_regularizer Hgr)
    as (grad' & Hg' & Hlen).
  assert (Heq : grad' = grad) by congruence. subst grad'.
  assert (Hshape : sweep_shapes_ok H_outer h_mid x_start grad) by (constructor; auto).
  assert (Hinit : sweep_state_ok n budget init).
  { apply initial_state_ok. unfold get_x_update_var.
    destruct x_update_var; [exact Hv | apply tf_zeros_length]. }
  pose proof (sweep_iterates_count Hshape Hb Hinit Hit) as Hk.
  change (OneStep.iter_ (snd init)) with 0 in Hk.
  destruct (sweep_stops_on_boundary Hshape tolerance maximum_full_sweeps Hb Hinv Hc)
    as [Hmod _].
  pose proof Hinv as (Hvar & Hxu & _ & Hi).
  rewrite (sweep_cond_eq Hshape tolerance maximum_full_sweeps Hb) in Hc.
  injection Hc as Hc'.
  fold threshold in Hc'. fold budget in Hb. unfold is_int32 in Hb.
  apply Z.mod_divide in Hmod; [|lia]. destruct Hmod as [q Hq].
  assert (Hdiv : OneStep.iter_ (snd final) / size x_start = q).
  { unfold size. rewrite Hq. apply Z.div_mul. lia. }
  exists grad, k, final, (map2 add x_start (OneStep.x_update (snd final))),
    (less (OneStep.x_update_diff_norm_sq (snd final)) threshold),
    (OneStep.iter_ (snd final) / size x_start), (fst final).
  split; [exact Hg|]. split; [exact Hrun|]. split; [exact Hit|].
  split; [rewrite (sweep_cond_eq Hshape tolerance maximum_full_sweeps Hb);
          fold threshold; rewrite Hc'; reflexivity|].
  rewrite Hdiv. unfold budget, size in *. fold n in Hn, Hq, Hi, Hb |- *.
  split; [lia|]. split; [nia|]. split.
  - intros Hconv. rewrite Hconv, andb_false_r in Hc'. cbn [negb] in Hc'.
    rewrite andb_true_r in Hc'. apply Z.ltb_ge in Hc'. nia.
  - split.
    + rewrite map2_length; [reflexivity | rewrite Hxu; reflexivity].
    + rewrite Hvar. exact Hxu.
Qed.

(** The state of a run that has moved nothing after [k] iterations. *)
Local Abbreviation still k :=
  (tf_zeros n,
   {| OneStep.iter_ := k;
      OneStep.x_update_diff_norm_sq := zero;
      OneStep.x_update := tf_zeros n;
      OneStep.hess_matmul_x_update := tf_zeros n |}).

(** X15.  A fixed point of the coordinate updates is a fixed point of the sweep:
    when the step computed at [x_start] is 0 for every coordinate, the
    sweep moves nothing.  It stops after one pass and reports convergence
    when the threshold is positive; otherwise it runs through its budget
    and reports no convergence. *)
Theorem sweep_at_a_fixed_point :
  sweep_inputs_ok gradient H_outer h_mid x_start maximum_full_sweeps x_update_var ->
  (Z.to_nat budget <= fuel)%nat ->
  1 <= maximum_full_sweeps ->
  (forall grad coord delta,
      grad_loss_with_l2 gradient x_start l2_regularizer = Ok grad ->
      OneStep.compute_delta H_outer h_mid x_start l1_regularizer l2_regularizer
        learning_rate (Z.of_nat (num_rows H_outer)) grad coord
        (tf_zeros n) (tf_zeros n) = Ok delta ->
      tf_equal delta zero = true) ->
  minimize_sparse_one_step fuel gradient H_outer h_mid x_start tolerance
    l1_regularizer l2_regularizer maximum_full_sweeps learning_rate
    x_update_var
  = Ok (map2 add x_start (tf_zeros n),
        less zero threshold,
        (if less zero threshold then 1 else maximum_full_sweeps),
        tf_zeros n).
Proof.
  intros Hok Hfuel Hmax Hfixed.
  destruct (sweep_run tolerance l1_regularizer l2_regularizer learning_rate
              Hok Hfuel)
    as (grad & k & final & Hg & _ & _ & _ & Hloop & Hrun).
  destruct Hok as [Hn Hgr Ho Hm HnN Hv Hb].
  destruct (grad_loss_with_l2_ok gradient x_start l2_regularizer Hgr)
    as (grad' & Hg' & Hlen).
  assert (Heq : grad' = grad) by congruence. subst grad'.
  assert (Hshape : sweep_shapes_ok H_outer h_mid x_start grad) by (constructor; auto).
  assert (Hlenv : length (get_x_update_var x_update_var x_start) = n).
  { unfold get_x_update_var. destruct x_update_var; [exact Hv | apply tf_zeros_length]. }
  assert (Hinit : init = still 0).
  { unfold init, initial_loop_vars, tf_zeros_like. rewrite Hlenv. reflexivity. }
  fold budget in Hb. pose proof Hb as Hb'. unfold is_int32 in Hb'.
  fold n in Hn.
  assert (Hbn : budget = maximum_full_sweeps * Z.of_nat n) by reflexivity.
  assert (Hstill_ok : forall j, 0 <= j <= budget -> sweep_state_ok n budget (still j)).
  { intros j Hj. unfold sweep_state_ok. cbn [fst snd OneStep.x_update
      OneStep.hess_matmul_x_update OneStep.iter_].
    rewrite tf_zeros_length. repeat split; auto; lia. }
  assert (Hbody : forall j, 0 <= j < budget -> body grad (still j) = Ok (still (j + 1))).
  { intros j Hj.
    destruct (sweep_body_eq l1_regularizer l2_regularizer learning_rate Hshape
                maximum_full_sweeps Hb (Hstill_ok j ltac:(lia)))
      as (delta & Hd & Hbd).
    { cbn [snd OneStep.iter_]. fold budget. lia. }
    cbn [snd OneStep.iter_ OneStep.x_update OneStep.hess_matmul_x_update] in Hd.
    rewrite Hbd. unfold next_state.
    rewrite (Hfixed grad _ delta Hg Hd).
    cbn [fst snd OneStep.iter_ OneStep.x_update OneStep.hess_matmul_x_update
         OneStep.x_update_diff_norm_sq].
    destruct (j mod Z.of_nat (length x_start) =? 0); reflexivity. }
  assert (Hcond : forall j,
            cond (still j)
            = Ok ((j <? budget)
                  && negb (((0 <? j) && (j mod Z.of_nat n =? 0))
                           && less zero threshold))).
  { intros j. rewrite (sweep_cond_eq Hshape tolerance maximum_full_sweeps Hb).
    reflexivity. }
  assert (Hpath : forall K : nat,
            (forall j, 0 <= j < Z.of_nat K -> cond (still j) = Ok true) ->
            Z.of_nat K <= budget ->
            visits cond (body grad) (still 0) (still (Z.of_nat K))).
  { intros K HK HKb.
    assert (Hgen : forall m j : nat, (j + m = K)%nat ->
              visits cond (body grad) (still (Z.of_nat j)) (still (Z.of_nat K))).
    { induction m as [|m IH]; intros j Hj.
      - replace j with K by lia. apply visits_here.
      - eapply visits_next; [| apply (IH (S j)); lia].
        split; [apply HK; lia|].
        rewrite Hbody by lia. do 2 f_equal; try lia.
        f_equal. lia. }
    apply (Hgen K 0%nat). lia. }
  assert (Hfinal : final = still (if less zero threshold then Z.of_nat n else budget)).
  { symmetry.
    destruct (less zero threshold) eqn:Ethr.
    - eapply while_stops_once; [exact Hloop | |].
      + fold init. rewrite Hinit. apply Hpath; [|nia].
        intros j Hj. rewrite Hcond. f_equal.
        apply andb_true_intro. split; [apply Z.ltb_lt; nia|].
        apply negb_true_iff. rewrite andb_true_r.
        apply andb_false_iff.
        destruct (Z.ltb_spec 0 j); [right|left; reflexivity].
        apply Z.eqb_neq. rewrite Z.mod_small by lia. lia.
      + rewrite Hcond, Z_mod_same_full. f_equal.
        apply andb_false_iff. right.
        destruct (Z.ltb_spec 0 (Z.of_nat n)); [reflexivity|lia].
    - assert (HbK : budget = Z.of_nat (Z.to_nat budget)) by nia.
      rewrite HbK.
      eapply while_stops_once; [exact Hloop | |].
      + fold init. rewrite Hinit. apply Hpath; [|lia].
        intros j Hj. rewrite Hcond, andb_false_r. cbn [negb].
        rewrite andb_true_r. f_equal. apply Z.ltb_lt. lia.
      + rewrite Hcond, <- HbK, Z.ltb_irrefl. reflexivity. }
  assert (Hq : (if less zero threshold then Z.of_nat n else budget) / Z.of_nat n
               = if less zero threshold then 1 else maximum_full_sweeps).
  { destruct (less zero threshold).
    - apply Z_div_same_full. lia.
    - rewrite Hbn. apply Z.div_mul. lia. }
  rewrite Hrun, Hfinal.
  cbn [fst snd OneStep.iter_ OneStep.x_update OneStep.x_update_diff_norm_sq].
  unfold size. fold n. fold threshold. rewrite Hq. reflexivity.
Qed.
End SweepCounts.

Section LoopLast.
Variable S : Type.
Variable cond : S -> result bool.
Variable body : S -> result S.

(** The last iteration of a run of at least one iteration. *)
Lemma iterates_last k s0 s :
  iterates cond body (Datatypes.S k) s0 s ->
  exists s1, iterates cond body k s0 s1 /\ loop_step cond body s1 s.
Proof.
  revert s0. induction k as [|k IH]; intros s0 H.
  - inversion H as [|k' a b c Hstep Hrest]; subst.
    inversion Hrest; subst. exists s0. split; [constructor | exact Hstep].
  - inversion H as [|k' a b c Hstep Hrest]; subst.
    destruct (IH _ Hrest) as (s1 & Hit & Hlast).
    exists s1. split; [econstructor; eassumption | exact Hlast].
Qed.
End LoopLast.

(* ================================================================== *)
(** * The driver: counts, and where its results come from *)

Section DriverFurther.
Context {D : dtype}.

Variable fuel : nat.
Variable grad_and_hessian_loss_fn : vec -> result (vec * matrix * vec).
Variable x_start : vec.
Variable tolerance l1_regularizer : F.
Variable l2_regularizer : option F.
Variable maximum_iterations maximum_full_sweeps_per_iteration : Z.
Variable learning_rate : option F.
Variable x_update_var : option vec.

Local Abbreviation cond := (Driver.cond (D:=D) maximum_iterations).
Local Abbreviation body :=
  (Driver.body fuel grad_and_hessian_loss_fn tolerance l1_regularizer
               l2_regularizer maximum_full_sweeps_per_iteration learning_rate).
Local Abbreviation init :=
  (get_x_update_var x_update_var x_start, (x_start, false, 0)).

Lemma driver_run x converged iter var :
  is_int32 maximum_iterations ->
  minimize_sparse fuel grad_and_hessian_loss_fn x_start tolerance l1_regularizer
    l2_regularizer maximum_iterations maximum_full_sweeps_per_iteration
    learning_rate x_update_var = Ok (x, converged, iter, var) ->
  exists k,
    iterates cond body k init (var, (x, converged, iter))
    /\ iter = Z.of_nat k
    /\ 0 <= iter <= Z.max 0 maximum_iterations
    /\ (iter <? maximum_iterations) && negb converged = false.
Proof.
  intros Hmax Hrun. unfold minimize_sparse in Hrun.
  bind_inv Hrun. destruct a as [v [[x' c'] i']]. inversion Hrun; subst.
  apply while_returns in Hbind. destruct Hbind as (k & _ & Hit & Hc).
  assert (Hinit : driver_state_ok maximum_iterations init)
    by (unfold driver_state_ok; simpl; lia).
  destruct (driver_iterates_count Hmax Hinit Hit) as [Hinv Hk].
  unfold driver_state_ok in Hinv. cbn [snd] in *.
  exists k. split; [exact Hit|]. split; [lia|]. split; [exact Hinv|].
  cbv [Driver.cond Driver._loop_cond snd] in Hc. injection Hc as Hc. exact Hc.
Qed.

(** X16.  The driver runs at most [maximum_iterations] iterations; a run that
    ends without convergence has run all of them, for a negative budget
    none; and a run of no iteration returns [x_start] unchanged. *)
Theorem driver_count_within_budget x converged iter var :
  is_int32 maximum_iterations ->
  minimize_sparse fuel grad_and_hessian_loss_fn x_start tolerance l1_regularizer
    l2_regularizer maximum_iterations maximum_full_sweeps_per_iteration
    learning_rate x_update_var = Ok (x, converged, iter, var) ->
  0 <= iter <= Z.max 0 maximum_iterations
  /\ (converged = false -> iter = Z.max 0 maximum_iterations)
  /\ (converged = true -> 1 <= iter)
  /\ (iter = 0 -> x = x_start /\ converged = false
                  /\ var = get_x_update_var x_update_var x_start).
Proof.
  intros Hmax Hrun.
  destruct (driver_run Hmax Hrun) as (k & Hit & Hk & Hi & Hc).
  assert (Hzero : iter = 0 -> x = x_start /\ converged = false
                              /\ var = get_x_update_var x_update_var x_start).
  { intros H0. assert (k = 0%nat) by lia. subst k.
    inversion Hit; subst. auto. }
  split; [exact Hi|]. split; [|split; [|exact Hzero]].
  - intros ->. rewrite andb_true_r in Hc. apply Z.ltb_ge in Hc. lia.
  - intros Hconv.
    destruct (Z.eq_dec iter 0) as [E|E]; [|lia].
    destruct (Hzero E) as (_ & Hf & _). congruence.
Qed.

End DriverFurther.

(* ================================================================== *)
(** * [fit_sparse] and [fit_sparse_one_step] *)

Section FitFurther.
Context {D : dtype} {Fl : floating D}.

Variable fuel : nat.
Variable model_matrix : matrix.
Variable response : vec.
Variable model : glm_model.
Variable tolerance l1_regularizer : F.
Variable l2_regularizer : option F.
Variable maximum_full_sweeps_per_iteration : Z.
Variable learning_rate : option F.

Lemma sweep_on_given_variable g h_outer h_middle x (var : option vec) :
  minimize_sparse_one_step fuel g h_outer h_middle x tolerance l1_regularizer
    l2_regularizer maximum_full_sweeps_per_iteration learning_rate
    (Some (get_x_update_var var x))
  = minimize_sparse_one_step fuel g h_outer h_middle x tolerance l1_regularizer
      l2_regularizer maximum_full_sweeps_per_iteration learning_rate var.
Proof. destruct var; reflexivity. Qed.

Lemma fit_one_step_on_given_variable x (var : option vec) :
  fit_sparse_one_step fuel model_matrix response model x tolerance
    l1_regularizer l2_regularizer maximum_full_sweeps_per_iteration
    learning_rate (Some (get_x_update_var var x))
  = fit_sparse_one_step fuel model_matrix response model x tolerance
      l1_regularizer l2_regularizer maximum_full_sweeps_per_iteration
      learning_rate var.
Proof.
  unfold fit_sparse_one_step.
  destruct (_sparse_or_dense_matvecmul model_matrix x false) as [predicted|e];
    [cbn [bind]|reflexivity].
  destruct (_grad_neg_log_likelihood_and_fim model_matrix predicted response model)
    as [[g hm]|e]; [cbn [bind]|reflexivity].
  apply sweep_on_given_variable.
Qed.

(** X18.  [fit_sparse] with [maximum_iterations = 1] is [fit_sparse_one_step],
    except for the count it reports: the number of outer iterations, 1,
    where [fit_sparse_one_step] reports the number of sweeps. *)
Theorem fit_sparse_of_one_iteration (x_start : vec) (x_update_var : option vec) :
  (0 < fuel)%nat ->
  fit_sparse fuel model_matrix response model x_start tolerance l1_regularizer
    l2_regularizer 1 maximum_full_sweeps_per_iteration learning_rate
    x_update_var
  = (' (x, converged, _, var) <-
       fit_sparse_one_step fuel model_matrix response model x_start tolerance
         l1_regularizer l2_regularizer maximum_full_sweeps_per_iteration
         learning_rate x_update_var ;;
     Ok (x, converged, 1, var)).
Proof.
  intros Hfuel. unfold fit_sparse, minimize_sparse, fit_sparse_one_step.
  destruct fuel as [|fuel'] eqn:Ef; [lia|]. rewrite <- Ef.
  assert (Hloop : forall c b (s : vec * Driver.loop_vars),
            tf_while_loop fuel c b s
            = (t <- c s ;;
               if t then s' <- b s ;; tf_while_loop fuel' c b s' else Ok s)).
  { intros c b s. rewrite Ef. reflexivity. }
  rewrite Hloop. clear Hloop.
  unfold Driver.cond at 1. cbn [snd Driver._loop_cond bind andb negb Z.ltb Z.compare].
  unfold Driver.body at 1. cbn [fst snd Driver._loop_body].
  unfold _grad_neg_log_likelihood_and_fim_fn.
  destruct (_sparse_or_dense_matvecmul model_matrix x_start false)
    as [predicted|e]; [cbn [bind]|reflexivity].
  destruct (_grad_neg_log_likelihood_and_fim model_matrix predicted response model)
    as [[g hm]|e]; [cbn [bind]|reflexivity].
  rewrite sweep_on_given_variable.
  destruct (minimize_sparse_one_step fuel g model_matrix hm x_start tolerance
              l1_regularizer l2_regularizer maximum_full_sweeps_per_iteration
              learning_rate x_update_var) as [[[[x c] sw] v]|e];
    [cbn [bind]|reflexivity].
  destruct fuel'; reflexivity.
Qed.

Variable maximum_iterations : Z.

Let N := num_rows model_matrix.
Let n := num_cols model_matrix.

Hypothesis Hmodel : forall linear_response,
    length linear_response = N ->
    exists mean variance grad_mean,
      model linear_response = Ok (mean, variance, grad_mean)
      /\ length mean = N /\ length variance = N /\ length grad_mean = N.
Hypothesis Hresponse : length response = N.
Hypothesis Hdims : (0 < n <= N)%nat.
Hypothesis Hsweeps : is_int32 (maximum_full_sweeps_per_iteration * Z.of_nat n).
Hypothesis Hfuel_sweeps :
  (Z.to_nat (maximum_full_sweeps_per_iteration * Z.of_nat n) <= fuel)%nat.

Lemma callback_ok (x : vec) :
  length x = n ->
  exists g h_middle,
    _grad_neg_log_likelihood_and_fim_fn model_matrix response model x
    = Ok (g, model_matrix, h_middle)
    /\ length g = n /\ length h_middle = N.
Proof.
  intros Hx. unfold _grad_neg_log_likelihood_and_fim_fn.
  rewrite matvecmul_ok by exact Hx. cbn [bind].
  match goal with
  | |- context [_grad_neg_log_likelihood_and_fim _ ?lr _ _] =>
      destruct (Hmodel lr) as (mean & variance & grad_mean & Hm & Hl1 & Hl2 & Hl3);
        [rewrite length_map, length_seq; reflexivity|];
        destruct (adapter_ok model_matrix lr response model Hm Hl1 Hl2 Hl3 Hresponse)
          as (gl & Hgl & Had)
  end.
  rewrite Had. cbn [bind].
  rewrite matvecmul_adjoint_ok in Hgl by (rewrite length_map, length_seq; reflexivity).
  injection Hgl as Hgl. subst gl.
  eexists. eexists. split; [reflexivity|].
  unfold vneg. rewrite !length_map, !length_seq. split; reflexivity.
Qed.

Lemma one_iteration_ok (x var : vec) :
  length x = n -> length var = n ->
  exists x' converged sweeps var',
    fit_sparse_one_step fuel model_matrix response model x tolerance
      l1_regularizer l2_regularizer maximum_full_sweeps_per_iteration
      learning_rate (Some var) = Ok (x', converged, sweeps, var')
    /\ length x' = n /\ length var' = n.
Proof.
  intros Hx Hv. unfold fit_sparse_one_step.
  destruct (callback_ok _ Hx) as (g & hm & Hcb & Hg & Hhm).
  unfold _grad_neg_log_likelihood_and_fim_fn in Hcb.
  destruct (_sparse_or_dense_matvecmul model_matrix x false) as [predicted|e];
    [cbn [bind] in *|discriminate].
  destruct (_grad_neg_log_likelihood_and_fim model_matrix predicted response model)
    as [[g' hm']|e]; [cbn [bind] in *|discriminate].
  injection Hcb as -> ->.
  assert (Hok : sweep_inputs_ok g model_matrix hm x
                  maximum_full_sweeps_per_iteration (Some var)).
  { constructor; fold n N; try lia; try congruence.
    unfold size. rewrite Hx. exact Hsweeps. }
  destruct (sweep_run tolerance l1_regularizer l2_regularizer learning_rate
              (fuel := fuel) Hok)
    as (grad & k & final & _ & _ & _ & (Hvar & Hxu & _ & _) & _ & Hrun).
  { unfold size. rewrite Hx. exact Hfuel_sweeps. }
  rewrite Hrun. do 4 eexists. split; [reflexivity|]. split.
  - rewrite map2_length; [exact Hx | rewrite Hxu; reflexivity].
  - rewrite Hvar, Hxu. exact Hx.
Qed.

(** X19.  On well-shaped inputs [fit_sparse_one_step] and [fit_sparse] return:
    with a model matrix of shape [[N, n]], [0 < n <= N], a response of
    shape [[N]], coefficients of shape [[n]] and a model that maps
    [N]-vectors to [N]-vectors, no tensor operation fails, and the
    coefficients returned have the shape [[n]]. *)
Theorem fit_sparse_returns_on_well_shaped_inputs
        (x_start : vec) (x_update_var : option vec) :
  length x_start = n ->
  match x_update_var with Some var => length var = n | None => True end ->
  is_int32 maximum_iterations ->
  (Z.to_nat maximum_iterations <= fuel)%nat ->
  (exists x converged sweeps var,
      fit_sparse_one_step fuel model_matrix response model x_start tolerance
        l1_regularizer l2_regularizer maximum_full_sweeps_per_iteration
        learning_rate x_update_var = Ok (x, converged, sweeps, var)
      /\ length x = n /\ length var = n)
  /\ (exists x converged iter var,
        fit_sparse fuel model_matrix response model x_start tolerance
          l1_regularizer l2_regularizer maximum_iterations
          maximum_full_sweeps_per_iteration learning_rate x_update_var
        = Ok (x, converged, iter, var)
        /\ length x = n /\ length var = n).
Proof.
  intros Hx Hv Hmax Hfuel.
  assert (Hvar : length (get_x_update_var x_update_var x_start) = n).
  { unfold get_x_update_var. destruct x_update_var; [exact Hv|].
    rewrite tf_zeros_length. exact Hx. }
  split.
  - destruct (one_iteration_ok _ _ Hx Hvar) as (x' & c & sw & v' & Hrun & Hl).
    rewrite fit_one_step_on_given_variable in Hrun.
    exists x', c, sw, v'. split; assumption.
  - unfold fit_sparse, minimize_sparse.
    set (cb := _grad_neg_log_likelihood_and_fim_fn model_matrix response model).
    pose (Inv := fun s : vec * Driver.loop_vars =>
                   driver_state_ok maximum_iterations s
                   /\ length (fst (fst (snd s))) = n /\ length (fst s) = n).
    assert (Hbody : forall v x c i, length x = n -> length v = n ->
              exists x' c' v',
                Driver.body fuel cb tolerance l1_regularizer l2_regularizer
                  maximum_full_sweeps_per_iteration learning_rate (v, (x, c, i))
                = Ok (v', (x', c', int32_add i 1))
                /\ length x' = n /\ length v' = n).
    { intros v x c i Hlx Hlv.
      destruct (one_iteration_ok _ _ Hlx Hlv) as (x' & c' & sw & v' & Hrun & Hlx' & Hlv').
      exists x', c', v'. split; [|split; assumption].
      unfold Driver.body, Driver._loop_body. cbn [fst snd].
      unfold cb, _grad_neg_log_likelihood_and_fim_fn.
      unfold fit_sparse_one_step in Hrun.
      destruct (_sparse_or_dense_matvecmul model_matrix x false) as [predicted|e];
        [cbn [bind] in *|discriminate].
      destruct (_grad_neg_log_likelihood_and_fim model_matrix predicted response model)
        as [[g hm]|e]; [cbn [bind] in *|discriminate].
      rewrite Hrun. reflexivity. }
    destruct (@while_outcome _ (Driver.cond (D:=D) maximum_iterations)
                (Driver.body fuel cb tolerance l1_regularizer l2_regularizer
                   maximum_full_sweeps_per_iteration learning_rate)
                Inv (fun s => Z.to_nat (maximum_iterations - snd (snd s))))
      with (fuel := fuel)
           (s0 := (get_x_update_var x_update_var x_start, (x_start, false, 0)))
      as [(k & [v [[x c] i]] & _ & _ & (_ & Hlx & Hlv) & Hrun)
         |(k & [v [[x c] i]] & e & _ & _ & (_ & Hlx & Hlv) & He & _)].
    + intros [v [[x c] i]] _. cbv [Driver.cond Driver._loop_cond snd]. eauto.
    + intros [v [[x c] i]] _ Hc. cbv [Driver.cond Driver._loop_cond snd] in Hc.
      injection Hc as Hc. apply andb_prop in Hc. destruct Hc as [Hlt _].
      apply Z.ltb_lt in Hlt. cbn [snd]. lia.
    + intros [v [[x c] i]] s' (Hs & Hlx & Hlv) Hc Hb. cbn [fst snd] in *.
      destruct (driver_step fuel cb tolerance l1_regularizer l2_regularizer
                  maximum_full_sweeps_per_iteration learning_rate Hmax Hs Hc Hb)
        as [Hs' Hi].
      destruct (Hbody v x c i Hlx Hlv) as (x' & c' & v' & Hb' & Hlx' & Hlv').
      pose proof (eq_trans (eq_sym Hb) Hb') as Heq. injection Heq as Heq.
      subst s'. cbn [fst snd] in *.
      split; [split; [exact Hs'|split; assumption]|].
      cbv [Driver.cond Driver._loop_cond snd] in Hc.
      injection Hc as Hc. apply andb_prop in Hc. destruct Hc as [Hlt _].
      apply Z.ltb_lt in Hlt. lia.
    + unfold Inv, driver_state_ok. cbn [fst snd]. repeat split; auto; lia.
    + cbn [snd]. lia.
    + rewrite Hrun. cbn [bind fst snd] in *. exists x, c, i, v.
      split; [reflexivity|]. split; assumption.
    + cbn [fst snd] in *.
      destruct (Hbody v x c i Hlx Hlv) as (x' & c' & v' & Hb' & _).
      pose proof (eq_trans (eq_sym He) Hb') as Heq. discriminate.
Qed.
End FitFurther.

(* ================================================================== *)
(** * Further runs on concrete data *)

Lemma sweep_count_within_budget_witness :
  sweep_inputs_ok example_gradient example_outer example_middle example_x_start
                  2 None
  /\ (Z.to_nat (2 * size example_x_start) <= 2)%nat
  /\ exists x converged sweeps var,
      minimize_sparse_one_step (D:=float64) 2 example_gradient example_outer
        example_middle example_x_start example_tolerance (f64 0) None 2 None
        None = Ok (x, converged, sweeps, var)
      /\ 0 <= sweeps <= Z.max 0 2
      /\ length x = length example_x_start.
Proof.
  assert (Hok : sweep_inputs_ok example_gradient example_outer example_middle
                                example_x_start 2 None).
  { constructor; simpl; try lia; try reflexivity. unfold is_int32. simpl. lia. }
  assert (Hfuel : (Z.to_nat (2 * size example_x_start) <= 2)%nat) by (simpl; lia).
  split; [exact Hok|]. split; [exact Hfuel|].
  destruct (@sweep_count_within_budget float64 2 example_gradient example_outer
              example_middle example_x_start example_tolerance (f64 0) None 2
              None None Hok Hfuel)
    as (grad & k & final & x & c & sw & v & _ & Hrun & _ & _ & _ & Hsw & _ & Hx & _).
  exists x, c, sw, v. repeat split; try assumption; apply Hsw.
Defined.

(** The example with a zero gradient: nothing moves. *)
Lemma sweep_at_a_fixed_point_witness :
  sweep_inputs_ok [f64 0] example_outer example_middle example_x_start 2 None
  /\ (Z.to_nat (2 * size example_x_start) <= 2)%nat
  /\ 1 <= 2
  /\ minimize_sparse_one_step (D:=float64) 2 [f64 0] example_outer
       example_middle example_x_start example_tolerance (f64 0) None 2 None None
     = Ok (map2 add example_x_start (tf_zeros (length example_x_start)),
           less zero (x_update_diff_norm_sq_convergence_threshold
                        example_tolerance example_x_start),
           (if less zero (x_update_diff_norm_sq_convergence_threshold
                            example_tolerance example_x_start)
            then 1 else 2),
           tf_zeros (length example_x_start)).
Proof.
  assert (Hok : sweep_inputs_ok [f64 0] example_outer example_middle
                                example_x_start 2 None).
  { constructor; simpl; try lia; try reflexivity. unfold is_int32. simpl. lia. }
  assert (Hfuel : (Z.to_nat (2 * size example_x_start) <= 2)%nat) by (simpl; lia).
  assert (Hmax : 1 <= 2) by lia.
  split; [exact Hok|]. split; [exact Hfuel|]. split; [exact Hmax|].
  apply (@sweep_at_a_fixed_point float64 2 [f64 0] example_outer example_middle
           example_x_start example_tolerance (f64 0) None 2 None None
           Hok Hfuel Hmax).
  intros grad coord delta Hg Hd.
  injection Hg as <-.
  unfold OneStep.compute_delta in Hd. unfold tf_index at 1 in Hd.
  destruct ((0 <=? coord) && (coord <? size example_x_start)) eqn:E;
    [|discriminate].
  apply andb_prop in E. destruct E as [E1 E2].
  apply Z.leb_le in E1. apply Z.ltb_lt in E2.
  assert (coord = 0) by (unfold size in E2; simpl in E2; lia). subst coord.
  assert (Hd0 : Ok (f64 0) = Ok delta) by exact Hd.
  injection Hd0 as <-. reflexivity.
Defined.

Lemma driver_count_within_budget_witness :
  is_int32 1
  /\ minimize_sparse (D:=float64) 2
       (_grad_neg_log_likelihood_and_fim_fn (Fl:=float64_floating)
          example_outer [f64 1; f64 1] linear_gaussian)
       example_x_start example_tolerance (f64 0) None 1 1 None None
     = Ok ([f64 1], false, 1, [f64 1])
  /\ 0 <= 1 <= Z.max 0 1.
Proof.
  assert (H1 : is_int32 1) by (unfold is_int32; lia).
  assert (H2 : minimize_sparse (D:=float64) 2
                 (_grad_neg_log_likelihood_and_fim_fn (Fl:=float64_floating)
                    example_outer [f64 1; f64 1] linear_gaussian)
                 example_x_start example_tolerance (f64 0) None 1 1 None None
               = Ok ([f64 1], false, 1, [f64 1])) by reflexivity.
  split; [exact H1|]. split; [exact H2|].
  exact (proj1 (@driver_count_within_budget float64 2
                  (_grad_neg_log_likelihood_and_fim_fn (Fl:=float64_floating)
                     example_outer [f64 1; f64 1] linear_gaussian)
                  example_x_start example_tolerance (f64 0) None 1 1 None None
                  [f64 1] false 1 [f64 1] H1 H2)).
Defined.


Lemma fit_sparse_of_one_iteration_witness :
  (0 < 2)%nat
  /\ fit_sparse (Fl:=float64_floating) 2 example_outer [f64 1; f64 1]
       linear_gaussian example_x_start example_tolerance (f64 0) None 1 1 None
       None
     = (' (x, converged, _, var) <-
          fit_sparse_one_step (Fl:=float64_floating) 2 example_outer
            [f64 1; f64 1] linear_gaussian example_x_start example_tolerance
            (f64 0) None 1 None None ;;
        Ok (x, converged, 1, var)).
Proof.
  assert (H : (0 < 2)%nat) by lia.
  split; [exact H|].
  exact (@fit_sparse_of_one_iteration float64 float64_floating 2 example_outer
           [f64 1; f64 1] linear_gaussian example_tolerance (f64 0) None 1 None
           example_x_start None H).
Defined.

Lemma fit_sparse_returns_on_well_shaped_inputs_witness :
  length [f64 1; f64 1] = num_rows example_outer
  /\ (0 < num_cols example_outer <= num_rows example_outer)%nat
  /\ is_int32 (1 * Z.of_nat (num_cols example_outer))
  /\ length example_x_start = num_cols example_outer
  /\ is_int32 3
  /\ exists x converged iter var,
      fit_sparse (Fl:=float64_floating) 3 example_outer [f64 1; f64 1]
        linear_gaussian example_x_start example_tolerance (f64 0) None 3 1 None
        None = Ok (x, converged, iter, var)
      /\ length x = num_cols example_outer.
Proof.
  assert (Hmodel : forall linear_response : @vec float64,
             length linear_response = num_rows example_outer ->
             exists mean variance grad_mean,
               linear_gaussian linear_response = Ok (mean, variance, grad_mean)
               /\ length mean = num_rows example_outer
               /\ length variance = num_rows example_outer
               /\ length grad_mean = num_rows example_outer).
  { intros lr Hlr. unfold linear_gaussian.
    exists lr, (map (fun _ => one) lr), (map (fun _ => one) lr).
    rewrite !length_map. repeat split; assumption. }
  assert (H1 : length [f64 1; f64 1] = num_rows example_outer) by reflexivity.
  assert (H2 : (0 < num_cols example_outer <= num_rows example_outer)%nat)
    by (simpl; lia).
  assert (H3 : is_int32 (1 * Z.of_nat (num_cols example_outer)))
    by (unfold is_int32; simpl; lia).
  assert (H4 : (Z.to_nat (1 * Z.of_nat (num_cols example_outer)) <= 3)%nat)
    by (simpl; lia).
  assert (H5 : length example_x_start = num_cols example_outer) by reflexivity.
  assert (H6 : is_int32 3) by (unfold is_int32; lia).
  assert (H7 : (Z.to_nat 3 <= 3)%nat) by (simpl; lia).
  split; [exact H1|]. split; [exact H2|]. split; [exact H3|].
  split; [exact H5|]. split; [exact H6|].
  destruct (@fit_sparse_returns_on_well_shaped_inputs float64 float64_floating
              3 example_outer [f64 1; f64 1] linear_gaussian example_tolerance
              (f64 0) None 1 None 3 Hmodel H1 H2 H3 H4 example_x_start None
              H5 I H6 H7)
    as (_ & x & c & i & v & Hrun & Hx & _).
  exists x, c, i, v. split; assumption.
Defined.
